(** * nnscaler.codegen.emit: the code-emission helpers, embedded and verified

    The Python module [nnscaler/codegen/emit.py] turns IR nodes into lines of
    Python text.  This development embeds the functions of that module as
    Rocq functions over an explicit model of the Python values they inspect,
    and proves the properties the specification states about them.

    Conventions.
    - A function that can raise returns [Res A]: [Ok a] or [Raise e].
    - Text is [string]; a character is a code point below 256.
    - A Python [dict] is an association list in insertion order, updated
      with [dict_set] (an existing key keeps its place and its key object).
    - A Python [set] of device ids is a [gset Z].
    - The dictionary [grad2tensor], which is only looked up, is a [gmap]
      keyed by the unique id its keys hash and compare by. *)

From Stdlib Require Import ZArith Ascii List Bool Lia.
From stdpp Require Import base gmap strings list pretty.

#[local] Set Warnings "-register-all".

Local Open Scope Z_scope.

(** ** Exceptions and the error monad *)

Inductive Exn : Type :=
| ValueError      (* raise ValueError(...), max() of nothing, a failed index() *)
| AssertionError  (* a failed assert *)
| AttributeError  (* attribute access on None *)
| IndexError      (* a subscript out of range *)
| TypeError       (* a subscript that is not an int *)
| KeyError.       (* a failed lookup by key *)

Inductive Res (A : Type) : Type :=
| Ok (a : A)
| Raise (e : Exn).
Arguments Ok {A} a.
Arguments Raise {A} e.

Notation "'do' x <- e ; k" :=
  (match e with Ok x => k | Raise err => Raise err end)
  (at level 10, x name, e at level 99, k at level 200, only parsing).

Definition is_ok {A} (r : Res A) : bool :=
  match r with Ok _ => true | Raise _ => false end.

(** [[f(x) for x in l]]: elements are evaluated left to right and the first
    exception ends the comprehension. *)
Definition mapM {A B} (f : A -> Res B) : list A -> Res (list B) :=
  fix go (l : list A) : Res (list B) :=
    match l with
    | [] => Ok []
    | x :: l' => do y <- f x; do ys <- go l'; Ok (y :: ys)
    end.

(** ** Managed values: IRObject and its subclasses *)

(** Modelled from the spec: the class hierarchy [IRObject] > [IRTensor] >
    [IRSubTensor] of [nnscaler.ir], which is not part of this file; the
    emitter tests it with [isinstance]. *)
Inductive IRClass : Type :=
| ClsIRObject      (* IRObject itself *)
| ClsIRTensor      (* IRTensor (or a subclass other than IRSubTensor) *)
| ClsIRSubTensor.  (* IRSubTensor, a subclass of IRTensor *)

(** Modelled from the spec: a managed value, as the emitter reads it.  It
    has a base name and a unique id, may be flagged as an attribute, and a
    tensor may refer to its gradient.  [obj_repr] is the text of the class's
    own [__repr__], which no resolved value shows. *)
Inductive IRObject : Type := MkIRObject {
  name : string;           (* val.name *)
  tid : Z;                 (* val.tid, the unique id *)
  is_attr : bool;          (* val.is_attr() *)
  cls : IRClass;           (* the class of the object *)
  grad : option IRObject;  (* t.grad, None when absent *)
  obj_repr : string        (* the text of the class's own __repr__ *)
}.

Definition isinstance_IRTensor (o : IRObject) : bool :=
  match cls o with ClsIRObject => false | _ => true end.

Definition isinstance_IRSubTensor (o : IRObject) : bool :=
  match cls o with ClsIRSubTensor => true | _ => false end.

(** Modelled from the spec: [__eq__] and [__hash__] of a managed value,
    which are not part of this file.  The unique id identifies a managed
    value, so as a dictionary key a managed value is its [tid]. *)
Definition irobject_eqb (a b : IRObject) : bool := (tid a =? tid b)%Z.

(** ** Python values

    The closed set of values [_safe_repr_value] discriminates on, and
    [VOther] for an object of any other class, which the emitter knows only
    through [repr()] and [str()]. *)

Inductive PyVal : Type :=
| VIRValue (nm : string)                  (* IRValue(name) *)
| VIRObject (o : IRObject)
| VSlice (start stop step : PyVal)
| VDict (items : list (PyVal * PyVal))
| VList (elts : list PyVal)
| VTuple (elts : list PyVal)
| VInt (z : Z)
| VStr (s : string)
| VBool (b : bool)
| VFloat (text : string)                  (* a float, held as its repr text *)
| VNone
| VBytes (b : string)
| VEllipsis
| VDtype (text : string)                  (* a torch.dtype, e.g. torch.float32 *)
| VDevice (type : string) (index : option Z)  (* torch.device *)
| VOther (repr_text str_text : string).

(** Structural induction through the nested lists. *)
Section PyVal_nested_ind.
Variable P : PyVal -> Prop.
Hypothesis HIRValue : forall nm, P (VIRValue nm).
Hypothesis HIRObject : forall o, P (VIRObject o).
Hypothesis HSlice : forall a b c, P a -> P b -> P c -> P (VSlice a b c).
Hypothesis HDict : forall items,
  Forall (fun kv => P (fst kv) /\ P (snd kv)) items -> P (VDict items).
Hypothesis HList : forall l, Forall P l -> P (VList l).
Hypothesis HTuple : forall l, Forall P l -> P (VTuple l).
Hypothesis HInt : forall z, P (VInt z).
Hypothesis HStr : forall s, P (VStr s).
Hypothesis HBool : forall b, P (VBool b).
Hypothesis HFloat : forall t, P (VFloat t).
Hypothesis HNone : P VNone.
Hypothesis HBytes : forall b, P (VBytes b).
Hypothesis HEllipsis : P VEllipsis.
Hypothesis HDtype : forall t, P (VDtype t).
Hypothesis HDevice : forall t i, P (VDevice t i).
Hypothesis HOther : forall r s, P (VOther r s).

Fixpoint PyVal_nested_ind (v : PyVal) : P v :=
  match v with
  | VIRValue nm => HIRValue nm
  | VIRObject o => HIRObject o
  | VSlice a b c =>
      HSlice a b c (PyVal_nested_ind a) (PyVal_nested_ind b) (PyVal_nested_ind c)
  | VDict items =>
      HDict items
        ((fix go (l : list (PyVal * PyVal))
            : Forall (fun kv => P (fst kv) /\ P (snd kv)) l :=
            match l with
            | [] => @List.Forall_nil _ _
            | (k, x) :: l' =>
                @List.Forall_cons _ (fun kv => P (fst kv) /\ P (snd kv)) (k, x) l'
                  (conj (PyVal_nested_ind k) (PyVal_nested_ind x)) (go l')
            end) items)
  | VList l =>
      HList l
        ((fix go (l : list PyVal) : Forall P l :=
            match l with
            | [] => @List.Forall_nil _ _
            | x :: l' => @List.Forall_cons _ P x l' (PyVal_nested_ind x) (go l')
            end) l)
  | VTuple l =>
      HTuple l
        ((fix go (l : list PyVal) : Forall P l :=
            match l with
            | [] => @List.Forall_nil _ _
            | x :: l' => @List.Forall_cons _ P x l' (PyVal_nested_ind x) (go l')
            end) l)
  | VInt z => HInt z
  | VStr s => HStr s
  | VBool b => HBool b
  | VFloat t => HFloat t
  | VNone => HNone
  | VBytes b => HBytes b
  | VEllipsis => HEllipsis
  | VDtype t => HDtype t
  | VDevice t i => HDevice t i
  | VOther r s => HOther r s
  end.
End PyVal_nested_ind.

(** ** Python text primitives *)

(** [sep.join(l)] *)
Definition join (sep : string) (l : list string) : string :=
  String.concat sep l.

(** [s.replace(old, new)] for one-character [old] and [new]. *)
Fixpoint replace (old new : ascii) (s : string) : string :=
  match s with
  | EmptyString => EmptyString
  | String c s' =>
      String (if Ascii.eqb c old then new else c) (replace old new s')
  end.

(** [str(n)] for an int is stdpp's decimal printer [pretty] on [Z]. *)
Definition str_int (z : Z) : string := pretty z.

Fixpoint contains_char (c : ascii) (s : string) : bool :=
  match s with
  | EmptyString => false
  | String c' s' => Ascii.eqb c' c || contains_char c s'
  end.

Definition squote : ascii := "039"%char.
Definition dquote : ascii := "034"%char.
Definition backslash : ascii := "092"%char.

Definition hex_digit (n : N) : ascii :=
  match n with
  | 0 => "0" | 1 => "1" | 2 => "2" | 3 => "3" | 4 => "4" | 5 => "5"
  | 6 => "6" | 7 => "7" | 8 => "8" | 9 => "9" | 10 => "a" | 11 => "b"
  | 12 => "c" | 13 => "d" | 14 => "e" | _ => "f"
  end%N%char.

Definition hex_escape (c : ascii) : string :=
  let n := N_of_ascii c in
  String backslash (String "x"
    (String (hex_digit (n / 16)%N) (String (hex_digit (n mod 16)%N) EmptyString))).

(** Which code points above 126 [repr] leaves as they are: for text the
    printable ones (in Latin-1: 161..255 but the soft hyphen 173), for bytes
    none. *)
Definition printable_high_str (n : N) : bool :=
  ((161 <=? n) && negb (n =? 173))%N.
Definition printable_high_bytes (n : N) : bool := false.

Definition repr_char (high : N -> bool) (quote c : ascii) : string :=
  let n := N_of_ascii c in
  if Ascii.eqb c quote || Ascii.eqb c backslash
  then String backslash (String c EmptyString)
  else if (n =? 9)%N then String backslash "t"
  else if (n =? 10)%N then String backslash "n"
  else if (n =? 13)%N then String backslash "r"
  else if (n <? 32)%N || (n =? 127)%N then hex_escape c
  else if (n <? 127)%N then String c EmptyString
  else if high n then String c EmptyString else hex_escape c.

Fixpoint repr_chars (high : N -> bool) (quote : ascii) (s : string) : string :=
  match s with
  | EmptyString => EmptyString
  | String c s' => repr_char high quote c +:+ repr_chars high quote s'
  end.

(** The quote is the single quote unless the text holds a single quote and
    no double quote. *)
Definition repr_quoted (high : N -> bool) (s : string) : string :=
  let quote :=
    if contains_char squote s && negb (contains_char dquote s)
    then dquote else squote in
  String quote (repr_chars high quote s +:+ String quote EmptyString).

Definition repr_str (s : string) : string := repr_quoted printable_high_str s.
Definition repr_bytes (b : string) : string :=
  String "b" (repr_quoted printable_high_bytes b).

(** [val.type if val.index is None else f'{val.type}:{val.index}'] *)
Definition device_str (type : string) (index : option Z) : string :=
  match index with
  | None => type
  | Some i => type +:+ ":" +:+ str_int i
  end.

(** [repr(v)] *)
Fixpoint py_repr (v : PyVal) : string :=
  match v with
  | VIRValue nm => nm
  | VIRObject o => obj_repr o
  | VSlice a b c =>
      "slice(" +:+ py_repr a +:+ ", " +:+ py_repr b +:+ ", " +:+ py_repr c +:+ ")"
  | VDict items =>
      "{" +:+ join ", "
        ((fix go (l : list (PyVal * PyVal)) : list string :=
            match l with
            | [] => []
            | (k, x) :: l' => (py_repr k +:+ ": " +:+ py_repr x) :: go l'
            end) items) +:+ "}"
  | VList l => "[" +:+ join ", " (map py_repr l) +:+ "]"
  | VTuple l =>
      match l with
      | [x] => "(" +:+ py_repr x +:+ ",)"
      | _ => "(" +:+ join ", " (map py_repr l) +:+ ")"
      end
  | VInt z => str_int z
  | VStr s => repr_str s
  | VBool b => if b then "True" else "False"
  | VFloat t => t
  | VNone => "None"
  | VBytes b => repr_bytes b
  | VEllipsis => "Ellipsis"
  | VDtype t => t
  | VDevice t i =>
      match i with
      | None => "device(type=" +:+ repr_str t +:+ ")"
      | Some n => "device(type=" +:+ repr_str t +:+ ", index=" +:+ str_int n +:+ ")"
      end
  | VOther r _ => r
  end.

(** [str(v)]: the text itself for a [str], the class's own text for a device
    or a foreign object, [repr(v)] otherwise. *)
Definition py_str (v : PyVal) : string :=
  match v with
  | VStr s => s
  | VDevice t i => device_str t i
  | VOther _ s => s
  | _ => py_repr v
  end.

(** ** Dictionaries *)

(** [d[k] = v]: the entry whose stored key equals [k] gets the new value and
    keeps its place and its key; otherwise the entry is appended. *)
Fixpoint dict_set {K V} (eqb : K -> K -> bool) (k : K) (v : V)
    (d : list (K * V)) : list (K * V) :=
  match d with
  | [] => [(k, v)]
  | (k0, v0) :: d' =>
      if eqb k0 k then (k0, v) :: d' else (k0, v0) :: dict_set eqb k v d'
  end.

(** [k == k'] between dictionary keys.  Numbers compare by value across
    [bool] and [int]; text, bytes and dtype tags by content; tuples element
    by element; managed values by unique id.  An [IRValue] and a foreign
    object have no [__eq__] and compare by identity: two entries of one
    dictionary never hold the same such object, so they compare unequal.
    A float is known by its text only (its equality with an int is not
    modelled).  Lists and dictionaries are not hashable. *)
Fixpoint py_eqb (a b : PyVal) : bool :=
  match a, b with
  | VIRObject x, VIRObject y => irobject_eqb x y
  | VInt x, VInt y => (x =? y)%Z
  | VBool x, VBool y => Bool.eqb x y
  | VInt x, VBool y => (x =? (if y then 1 else 0))%Z
  | VBool x, VInt y => ((if x then 1 else 0) =? y)%Z
  | VStr x, VStr y => String.eqb x y
  | VFloat x, VFloat y => String.eqb x y
  | VNone, VNone => true
  | VEllipsis, VEllipsis => true
  | VBytes x, VBytes y => String.eqb x y
  | VDtype x, VDtype y => String.eqb x y
  | VDevice t i, VDevice t' i' =>
      String.eqb t t' &&
      match i, i' with
      | None, None => true
      | Some n, Some n' => (n =? n')%Z
      | _, _ => false
      end
  | VSlice a1 a2 a3, VSlice b1 b2 b3 =>
      py_eqb a1 b1 && py_eqb a2 b2 && py_eqb a3 b3
  | VTuple l, VTuple l' =>
      (fix go (l l' : list PyVal) : bool :=
         match l, l' with
         | [], [] => true
         | x :: r, y :: r' => py_eqb x y && go r r'
         | _, _ => false
         end) l l'
  | _, _ => false
  end.

(** [{f(k): f(v) for k, v in items}], filling [acc]: for each entry in
    order the key is evaluated, then the value, then the entry is stored. *)
Definition dict_comp (f : PyVal -> Res PyVal)
    : list (PyVal * PyVal) -> list (PyVal * PyVal) -> Res (list (PyVal * PyVal)) :=
  fix go (l acc : list (PyVal * PyVal)) : Res (list (PyVal * PyVal)) :=
    match l with
    | [] => Ok acc
    | (k, v) :: l' =>
        do k' <- f k;
        do v' <- f v;
        go l' (dict_set py_eqb k' v' acc)
    end.

(** ** The naming resolver: [IRValue], [_safe_repr_value], [_safe_str_dict] *)

(** [_safe_repr_value(val, prefix_attr)].  A dictionary is rebuilt entry by
    entry, so resolved keys that compare equal share one entry. *)
Fixpoint _safe_repr_value (val : PyVal) (prefix_attr : option string)
    : Res PyVal :=
  match val with
  | VIRValue _ => Ok val
  | VIRObject o =>
      let tensor_name := name o in
      let tensor_name := replace "." "_" tensor_name in
      let nm := join "_" [tensor_name; str_int (tid o)] in
      let nm :=
        match prefix_attr with
        | Some p => if is_attr o then p +:+ nm else nm
        | None => nm
        end in
      Ok (VIRValue nm)
  | VSlice start stop step =>
      do a <- _safe_repr_value start prefix_attr;
      do b <- _safe_repr_value stop prefix_attr;
      do c <- _safe_repr_value step prefix_attr;
      Ok (VSlice a b c)
  | VDict items =>
      do d <- dict_comp (fun v => _safe_repr_value v prefix_attr) items [];
      Ok (VDict d)
  | VList elts =>
      do l <- mapM (fun v => _safe_repr_value v prefix_attr) elts;
      Ok (VList l)
  | VTuple elts =>
      do l <- mapM (fun v => _safe_repr_value v prefix_attr) elts;
      Ok (VTuple l)
  | VInt _ | VStr _ | VBool _ | VFloat _ | VNone | VBytes _ | VEllipsis
  | VDtype _ => Ok val
  | VDevice type index => Ok (VStr (device_str type index))
  | VOther _ _ => Raise ValueError
  end.

(** [_safe_str_dict(val, prefix_attr)] over a dictionary with text keys. *)
Fixpoint _safe_str_dict_from (val : list (string * PyVal))
    (prefix_attr : option string) (acc : list (string * string))
    : Res (list (string * string)) :=
  match val with
  | [] => Ok acc
  | (k, v) :: val' =>
      do x <- _safe_repr_value v prefix_attr;
      _safe_str_dict_from val' prefix_attr (dict_set String.eqb k (py_repr x) acc)
  end.

Definition _safe_str_dict (val : list (string * PyVal))
    (prefix_attr : option string) : Res (list (string * string)) :=
  _safe_str_dict_from val prefix_attr [].

(** ** class CodeEmission *)

(** [tensor_name(val, prefix_attr)] *)
Definition tensor_name (val : PyVal) (prefix_attr : option string)
    : Res string :=
  do x <- _safe_repr_value val prefix_attr; Ok (py_repr x).

(** The test [isinstance(t, IRTensor) and skip_attr and t.is_attr()] of
    [tuple_name] and [return_name]. *)
Definition skipped (t : PyVal) (skip_attr : bool) : bool :=
  match t with
  | VIRObject o => isinstance_IRTensor o && skip_attr && is_attr o
  | _ => false
  end.

(** The loop shared by [tuple_name] and [return_name]. *)
Fixpoint names_of (tensors : list PyVal) (skip_attr : bool)
    (prefix_attr : option string) : Res (list string) :=
  match tensors with
  | [] => Ok []
  | t :: rest =>
      if skipped t skip_attr then names_of rest skip_attr prefix_attr
      else
        do n <- tensor_name t prefix_attr;
        do names <- names_of rest skip_attr prefix_attr;
        Ok (n :: names)
  end.

(** [tuple_name(tensors, skip_attr, prefix_attr)] *)
Definition tuple_name (tensors : list PyVal) (skip_attr : bool)
    (prefix_attr : option string) : Res string :=
  do names <- names_of tensors skip_attr prefix_attr;
  Ok ("(" +:+ join ", " (names ++ [EmptyString]) +:+ ")").

(** [return_name(tensors, skip_attr, prefix_attr)] *)
Definition return_name (tensors : list PyVal) (skip_attr : bool)
    (prefix_attr : option string) : Res string :=
  do names <- names_of tensors skip_attr prefix_attr;
  Ok (if (length names =? 0)%nat then "_" else join ", " names).

(** Modelled from the spec: [IRSegment.modify_objects_of_complex], which is
    not part of this file.  It rebuilds a tuple, list, dictionary or slice
    with every managed value inside replaced by [modifier] of it, and leaves
    any other value as it is. *)
Fixpoint modify_objects_of_complex (val : PyVal)
    (modifier : IRObject -> Res PyVal) : Res PyVal :=
  match val with
  | VTuple elts =>
      do l <- mapM (fun v => modify_objects_of_complex v modifier) elts;
      Ok (VTuple l)
  | VList elts =>
      do l <- mapM (fun v => modify_objects_of_complex v modifier) elts;
      Ok (VList l)
  | VDict items =>
      do d <- dict_comp (fun v => modify_objects_of_complex v modifier) items [];
      Ok (VDict d)
  | VSlice start stop step =>
      do a <- modify_objects_of_complex start modifier;
      do b <- modify_objects_of_complex stop modifier;
      do c <- modify_objects_of_complex step modifier;
      Ok (VSlice a b c)
  | VIRObject o => modifier o
  | _ => Ok val
  end.

(** [lambda t: IRValue(self.tensor_name(t, prefix_attr))] *)
Definition name_modifier (prefix_attr : option string) (t : IRObject)
    : Res PyVal :=
  do n <- tensor_name (VIRObject t) prefix_attr; Ok (VIRValue n).

(** [complex_name(val, prefix_attr)] *)
Definition complex_name (val : PyVal) (prefix_attr : option string)
    : Res string :=
  let modifier := name_modifier prefix_attr in
  do val' <- modify_objects_of_complex val modifier;
  Ok (py_str val').

(** [kwargs_name]: the keys of [kwargs] are text, which the
    traversal leaves as it is, so only the values are rebuilt. *)
Fixpoint kwargs_name_items (kwargs : list (string * PyVal))
    : Res (list string) :=
  match kwargs with
  | [] => Ok []
  | (nm, v) :: rest =>
      let modifier := name_modifier None in
      do val <- modify_objects_of_complex v modifier;
      do names <- kwargs_name_items rest;
      Ok ((nm +:+ "=" +:+ py_str val) :: names)
  end.

Definition kwargs_name (kwargs : list (string * PyVal)) : Res string :=
  do names <- kwargs_name_items kwargs;
  Ok (join ", " names).

(** [kwargs_dict] *)
Definition kwargs_dict (kwargs : list (string * PyVal))
    : Res (list (string * string)) :=
  _safe_str_dict kwargs None.

(** ** IR nodes read by class FuncEmission *)

(** Modelled from the spec: [CompileFlag], the process-wide configuration
    of [nnscaler.flags]; only [line_timer] is read. *)
Record CompileFlag : Type := { line_timer : bool }.

(** Modelled from the spec: a forward operation ([IRFwOperation]) with its
    comment, signature, inputs, keyword arguments and outputs. *)
Record IRFwOperation : Type := {
  fw_comment : option string;            (* node.comment *)
  fw_signature : string;                 (* node.signature *)
  fw_inputs : list PyVal;                (* node.inputs() *)
  fw_kwargs : list (string * PyVal);     (* node.kwargs *)
  fw_outputs : list PyVal                (* node.outputs() *)
}.

(** Modelled from the spec: an emission rule of the signature registry,
    [rule(node, inputs, kwargs, runtime_devid, plan_ndevs, runtime_ndevs)],
    which returns the right-hand side or raises. *)
Definition EmitRule : Type :=
  IRFwOperation -> list string -> list (string * string) -> Z -> Z -> Z ->
  Res string.

(** The emitter object.  [_emit_rules] stands for [Sign2EmitRule().map]:
    the registry is a parameter, and gives a rule or raises. *)
Record FuncEmission : Type := { _emit_rules : string -> Res EmitRule }.

(** Modelled from the spec: what [emit_adapter] reads of an object of its
    [prims] list, which is a primitive of the adapter or the adapter itself
    standing for its own primitive.  [==] between two such objects is
    identity, kept here as [prim_oid]. *)
Record Prim : Type := {
  prim_oid : nat;                        (* identity of the object *)
  isinstance_CommPrim : bool;            (* isinstance(prim, CommPrim) *)
  prim_inputs : list PyVal;              (* prim.inputs() *)
  prim_outputs : list PyVal;             (* prim.outputs() *)
  prim_kwargs : list (string * PyVal);   (* prim.kwargs *)
  prim_signature : string;               (* prim.signature *)
  prim_device : list Z                   (* prim.device *)
}.

Definition prim_eqb (p q : Prim) : bool := (prim_oid p =? prim_oid q)%nat.

(** Modelled from the spec: an adapter node ([IRAdapter]) with its device
    assignment, its primitives, and what it shows when it is emitted as its
    own primitive. *)
Record IRAdapter : Type := {
  device : list Z;                       (* node.device *)
  differentiable : bool;                 (* node.differentiable *)
  custom : bool;                         (* node.custom *)
  prims : list Prim;                     (* node.prims *)
  adapter_oid : nat;
  adapter_inputs : list PyVal;
  adapter_outputs : list PyVal;
  adapter_kwargs : list (string * PyVal);
  adapter_signature : string
}.

(** The node read as a primitive; an adapter is not a [CommPrim]. *)
Definition adapter_self (node : IRAdapter) : Prim :=
  {| prim_oid := adapter_oid node;
     isinstance_CommPrim := false;
     prim_inputs := adapter_inputs node;
     prim_outputs := adapter_outputs node;
     prim_kwargs := adapter_kwargs node;
     prim_signature := adapter_signature node;
     prim_device := device node |}.

(** Modelled from the spec: a cell ([IRCell]) as
    [get_backward_callsite_io_tensors] reads it; a backward cell refers to
    the forward cell it mirrors. *)
Inductive IRCell : Type := MkIRCell {
  isfw : bool;                           (* cell.isfw() *)
  mirror : option IRCell;                (* cell.mirror *)
  cell_inputs : list PyVal;              (* cell.inputs() *)
  cell_outputs : list PyVal              (* cell.outputs() *)
}.

(** Modelled from the spec: the constructor [IRObject(name)], which is not
    part of this file.  It draws the unique id of the new value from the
    process-wide id counter; the state is the last id handed out.  The new
    value is a plain IRObject and not an attribute. *)
Definition new_IRObject (nm : string) (gen : Z) : IRObject * Z :=
  let t := gen + 1 in
  ({| name := nm; tid := t; is_attr := false; cls := ClsIRObject;
      grad := None; obj_repr := EmptyString |}, t).

(** ** class FuncEmission: [emit_fnode] *)

(** The lines [emit_fnode] puts before the statement: the comment and the
    timer probe. *)
Definition fnode_header (flags : CompileFlag) (node : IRFwOperation)
    : list string :=
  let codes := [] in
  let codes :=
    match fw_comment node with
    | Some c => codes ++ ["# " +:+ c]
    | None => codes
    end in
  if line_timer flags then
    let label :=
      match fw_comment node with
      | Some c => if String.eqb c EmptyString then fw_signature node else c
      | None => fw_signature node
      end in
    codes ++ ["nnscaler.runtime.function.print_time(" +:+ repr_str label +:+ ")"]
  else codes.

(** The two loops of the local function [r]: over the elements of a list
    or tuple with their [enumerate] index, and over the items of a
    dictionary; [rec] is [r] itself. *)
Definition r_elts
    (rec : PyVal -> list PyVal -> list (IRObject * list PyVal) ->
           list (IRObject * list PyVal))
    (current_path : list PyVal)
    : list PyVal -> Z -> list (IRObject * list PyVal) ->
      list (IRObject * list PyVal) :=
  fix go (l : list PyVal) (i : Z) (acc : list (IRObject * list PyVal)) :=
    match l with
    | [] => acc
    | v :: l' => go l' (i + 1) (rec v (current_path ++ [VInt i]) acc)
    end.

Definition r_items
    (rec : PyVal -> list PyVal -> list (IRObject * list PyVal) ->
           list (IRObject * list PyVal))
    (current_path : list PyVal)
    : list (PyVal * PyVal) -> list (IRObject * list PyVal) ->
      list (IRObject * list PyVal) :=
  fix go (l : list (PyVal * PyVal)) (acc : list (IRObject * list PyVal)) :=
    match l with
    | [] => acc
    | (k, v) :: l' => go l' (rec v (current_path ++ [k]) acc)
    end.

(** The local function [r(t, current_path)] of [emit_fnode]; the dictionary
    [irobj_path] it fills is threaded through.  A path step is the index of
    [enumerate] or the key of a dictionary. *)
Fixpoint r (t : PyVal) (current_path : list PyVal)
    (irobj_path : list (IRObject * list PyVal))
    : list (IRObject * list PyVal) :=
  match t with
  | VIRObject o => dict_set irobject_eqb o current_path irobj_path
  | VList elts | VTuple elts =>
      r_elts (fun v cp acc => r v cp acc) current_path elts 0 irobj_path
  | VDict items =>
      r_items (fun v cp acc => r v cp acc) current_path items irobj_path
  | _ => irobj_path
  end.

(** [irobj_path] after [r(node.outputs(), [])]. *)
Definition irobj_path_of (node : IRFwOperation)
    : list (IRObject * list PyVal) :=
  r (VTuple (fw_outputs node)) [] [].

(** [all(len(x) == 1 for x in irobj_path.values())] *)
Definition all_leaves (irobj_path : list (IRObject * list PyVal)) : bool :=
  forallb (fun x => (length x =? 1)%nat) (map snd irobj_path).

(** The right-hand side: the inputs and keyword arguments are resolved, the
    rule is looked up by signature and called. *)
Definition fnode_body (self : FuncEmission) (node : IRFwOperation)
    (runtime_devid plan_ndevs runtime_ndevs : Z)
    (prefix_attr : option string) : Res string :=
  let signature := fw_signature node in
  do inputs <- mapM (fun t => tensor_name t prefix_attr) (fw_inputs node);
  do kwargs <- kwargs_dict (fw_kwargs node);
  do emit_rule <- _emit_rules self signature;
  emit_rule node inputs kwargs runtime_devid plan_ndevs runtime_ndevs.

(** The first loop of the nested branch: the name bound to each top-level
    output, and the intermediate names among them. *)
Fixpoint bind_outputs (outs : list PyVal) (gen : Z)
    : Res (list string * list string * Z) :=
  match outs with
  | [] => Ok ([], [], gen)
  | t :: rest =>
      match t with
      | VIRObject _ =>
          do n <- tensor_name t None;
          do x <- bind_outputs rest gen;
          let '(outputs, im_outputs, gen') := x in
          Ok (n :: outputs, im_outputs, gen')
      | _ =>
          let '(o, gen1) := new_IRObject "im_output" gen in
          do im_output <- tensor_name (VIRObject o) None;
          do x <- bind_outputs rest gen1;
          let '(outputs, im_outputs, gen') := x in
          Ok (im_output :: outputs, im_output :: im_outputs, gen')
      end
  end.

(** [outputs[i]] on a list: an int indexes from the front, or from the
    back when it is negative. *)
Definition subscript (outputs : list string) (i : PyVal) : Res string :=
  match i with
  | VInt z =>
      let n := Z.of_nat (length outputs) in
      let j := if (z <? 0)%Z then z + n else z in
      if (j <? 0)%Z then Raise IndexError
      else match outputs !! Z.to_nat j with
           | Some out => Ok out
           | None => Raise IndexError
           end
  | VBool b => match outputs !! (if b then 1 else 0)%nat with
               | Some out => Ok out
               | None => Raise IndexError
               end
  | _ => Raise TypeError
  end.

(** The second loop of the nested branch: one extraction statement for each
    managed value below the top level. *)
Fixpoint extract_outputs (outputs : list string)
    (items : list (IRObject * list PyVal)) : Res (list string) :=
  match items with
  | [] => Ok []
  | (t, path) :: rest =>
      if (length path =? 1)%nat then extract_outputs outputs rest
      else
        match path with
        | [] => Raise IndexError
        | p0 :: steps =>
            do out <- subscript outputs p0;
            let out :=
              fold_left (fun out p => out +:+ "[" +:+ py_repr p +:+ "]") steps out in
            do n <- tensor_name (VIRObject t) None;
            do codes <- extract_outputs outputs rest;
            Ok ((n +:+ " = " +:+ out) :: codes)
        end
  end.

(** [emit_fnode(node, runtime_devid, plan_ndevs, runtime_ndevs, prefix_attr)];
    the id counter goes in and comes out. *)
Definition emit_fnode (self : FuncEmission) (flags : CompileFlag)
    (node : IRFwOperation) (runtime_devid plan_ndevs runtime_ndevs : Z)
    (prefix_attr : option string) (gen : Z) : Res (list string * Z) :=
  let codes := fnode_header flags node in
  do body <- fnode_body self node runtime_devid plan_ndevs runtime_ndevs
               prefix_attr;
  if (length (fw_outputs node) =? 0)%nat then Ok (codes ++ [body], gen)
  else
    let irobj_path := irobj_path_of node in
    if all_leaves irobj_path then
      (* all IRObjects are leafs: assign the output directly *)
      do outputs <- mapM (fun t => tensor_name t None) (fw_outputs node);
      Ok (codes ++ [join ", " outputs +:+ " = " +:+ body], gen)
    else
      do x <- bind_outputs (fw_outputs node) gen;
      let '(outputs, im_outputs, gen') := x in
      let codes := codes ++ [join ", " outputs +:+ " = " +:+ body] in
      do extractions <- extract_outputs outputs irobj_path;
      let codes := codes ++ extractions in
      (* release intermediate outputs *)
      let codes := codes ++ map (fun im_output => "del " +:+ im_output) im_outputs in
      Ok (codes, gen').

(** ** class FuncEmission: [emit_adapter] *)

(** [prims.index(p)]: the first position holding an object equal to [p]. *)
Fixpoint index (l : list Prim) (p : Prim) : Res nat :=
  match l with
  | [] => Raise ValueError
  | q :: l' =>
      if prim_eqb q p then Ok 0%nat
      else do i <- index l' p; Ok (S i)
  end.

(** [max(...)] over a sequence, which raises on an empty one. *)
Definition py_max (l : list nat) : Res nat :=
  match l with
  | [] => Raise ValueError
  | x :: l' => Ok (fold_left Nat.max l' x)
  end.

(** [set(p.device)] *)
Definition device_set (p : Prim) : gset Z := list_to_set (prim_device p).

(** The block under [if async_op:], which may clear the flag. *)
Definition check_async (prims : list Prim) (async_op : bool) : Res bool :=
  if async_op then
    let non_colls := List.filter (fun p => negb (isinstance_CommPrim p)) prims in
    let colls := List.filter isinstance_CommPrim prims in
    (* check condition 1) *)
    do async_op <-
      (if (1 <? length non_colls)%nat then
         do idxs <- mapM (index prims) non_colls;
         do m <- py_max idxs;
         Ok (if negb (m + 1 =? length non_colls)%nat then false else async_op)
       else Ok async_op);
    (* check condition 2) *)
    let devices := map device_set colls in
    Ok (if (1 <? length colls)%nat &&
           negb (match devices with
                 | [] => true
                 | d0 :: rest => forallb (fun devs => bool_decide (devs = d0)) rest
                 end)
        then false else async_op)
  else Ok async_op.

(** [prim_kwargs] of the loop body: a copy of the primitive's keyword
    arguments, with the flag added for a collective under [async_op]. *)
Definition emitted_kwargs (async_op : bool) (prim : Prim)
    : list (string * PyVal) :=
  let prim_kwargs := prim_kwargs prim in
  if async_op && isinstance_CommPrim prim
  then dict_set String.eqb "async_op" (VBool true) prim_kwargs
  else prim_kwargs.

(** [itensors] of the loop body: the name of the only input, or the
    tuple of the inputs when there is not exactly one. *)
Definition itensors_of (prefix_attr : option string) (prim : Prim)
    : Res string :=
  match prim_inputs prim with
  | [t] => tensor_name t prefix_attr
  | _ => tuple_name (prim_inputs prim) false prefix_attr
  end.

(** The body of the loop over [prims]. *)
Definition emit_prim (flags : CompileFlag) (prefix_attr : option string)
    (async_op : bool) (prim : Prim) : Res (list string) :=
  do itensors <- itensors_of prefix_attr prim;
  let prim_kwargs := emitted_kwargs async_op prim in
  do kwargs <- kwargs_name prim_kwargs;
  do outputs <- return_name (prim_outputs prim) false None;
  let timer :=
    if line_timer flags
    then ["nnscaler.runtime.function.print_time(" +:+
          repr_str (prim_signature prim) +:+ ")"]
    else [] in
  let code :=
    outputs +:+ " = " +:+ prim_signature prim +:+
    "(" +:+ itensors +:+ ", " +:+ kwargs +:+ ")" in
  Ok (timer ++ [code]).

(** The list [prims] that [emit_adapter] walks. *)
Definition selected_prims (node : IRAdapter) : list Prim :=
  if differentiable node && custom node then [adapter_self node]
  else prims node.

(** [emit_adapter(node, prefix_attr, async_op)] *)
Definition emit_adapter (flags : CompileFlag) (node : IRAdapter)
    (prefix_attr : option string) (async_op : bool) : Res (list string) :=
  if negb (length (device node) =? 1)%nat then Raise AssertionError
  else
    let prims := selected_prims node in
    do async_op <- check_async prims async_op;
    do codes <- mapM (emit_prim flags prefix_attr async_op) prims;
    Ok (concat codes).

(** ** class FuncEmission: [get_backward_callsite_io_tensors] *)

(** [t] when [isinstance(t, IRSubTensor)]. *)
Definition as_IRSubTensor (t : PyVal) : option IRObject :=
  match t with
  | VIRObject o => if isinstance_IRSubTensor o then Some o else None
  | _ => None
  end.

(** One round of the loop that fills [grad2tensor]. *)
Definition grad2tensor_step (grad2tensor : gmap Z IRObject) (t : PyVal)
    : gmap Z IRObject :=
  match as_IRSubTensor t with
  | Some o =>
      match grad o with
      | Some g => <[tid g := o]> grad2tensor
      | None => grad2tensor
      end
  | None => grad2tensor
  end.

(** The dictionary [grad2tensor] after the loop over
    [fwop.inputs() + fwop.outputs()]. *)
Definition grad2tensor_of (fwop : IRCell) : gmap Z IRObject :=
  fold_left grad2tensor_step (cell_inputs fwop ++ cell_outputs fwop) ∅.

(** [[grad2tensor[g] for g in grads if g in grad2tensor]] *)
Definition lookup_grads (grad2tensor : gmap Z IRObject)
    (grads : list IRObject) : list IRObject :=
  omap (fun g => grad2tensor !! tid g) grads.

(** [get_backward_callsite_io_tensors(bwop)] *)
Definition get_backward_callsite_io_tensors (bwop : IRCell)
    : Res (list IRObject * list IRObject * list IRObject * list IRObject) :=
  if isfw bwop then Raise AssertionError
  else
    match mirror bwop with
    | None => Raise AttributeError
    | Some fwop =>
        let grad2tensor := grad2tensor_of fwop in
        let input_grads := omap as_IRSubTensor (cell_outputs bwop) in
        let output_grads := omap as_IRSubTensor (cell_inputs bwop) in
        let input_tensors := lookup_grads grad2tensor input_grads in
        let output_tensors := lookup_grads grad2tensor output_grads in
        Ok (input_tensors, output_tensors, output_grads, input_grads)
    end.

(** ** The other emitters: [node_name], [emit_dataloader], [emit_reducer],
    [emit_release] *)

(** Modelled from the spec: what [node_name] reads of a cell, its display
    name and its per-graph counter id. *)
Record NamedCell : Type := {
  cell_name : string;                    (* node.name *)
  cell_cid : Z                           (* node.cid *)
}.

(** [node_name(node)] *)
Definition node_name (node : NamedCell) : string :=
  cell_name node +:+ str_int (cell_cid node).

(** Modelled from the spec: a data-load operation ([IRDataOperation]) with
    its inputs and outputs; [node.input(0)] is the first input and fails on
    a node without inputs. *)
Record IRDataOperation : Type := {
  data_inputs : list PyVal;              (* node.inputs() *)
  data_outputs : list PyVal              (* node.outputs() *)
}.

(** [emit_dataloader(node)] *)
Definition emit_dataloader (node : IRDataOperation) : Res (list string) :=
  do outputs <- return_name (data_outputs node) false None;
  do input0 <-
    (match data_inputs node with
     | [] => Raise IndexError
     | t :: _ => Ok t
     end);
  do loader <- tensor_name input0 None;
  Ok [outputs +:+ " = next(" +:+ loader +:+ ")"].

(** Modelled from the spec: a weight reducer ([IRWeightReducer]), of which
    the emitter reads the instance id. *)
Record IRWeightReducer : Type := {
  reducer_id : Z                         (* node._id *)
}.

(** [reducer_name] of [emit_reducer] *)
Definition reducer_name (node : IRWeightReducer) : string :=
  "self.wreducer" +:+ str_int (reducer_id node).

(** [emit_reducer(node)] *)
Definition emit_reducer (flags : CompileFlag) (node : IRWeightReducer)
    : list string :=
  let codes := [] in
  let codes :=
    if line_timer flags
    then codes ++ ["nnscaler.runtime.function.print_time(" +:+
                   repr_str (reducer_name node) +:+ ")"]
    else codes in
  codes ++ [reducer_name node +:+ ".sync_grads()"].

(** [emit_release(tensors)] *)
Definition emit_release (tensors : list PyVal) : Res string :=
  do tnames <- mapM (fun t => tensor_name t None) tensors;
  Ok ("del " +:+ join ", " tnames).

(** * Vocabulary of the properties *)

(** ** Names and values *)

(** The identifier [_safe_repr_value] gives a managed value. *)
Definition managed_name (o : IRObject) (prefix_attr : option string) : string :=
  match prefix_attr with
  | Some p =>
      if is_attr o then p +:+ replace "." "_" (name o) +:+ "_" +:+ str_int (tid o)
      else replace "." "_" (name o) +:+ "_" +:+ str_int (tid o)
  | None => replace "." "_" (name o) +:+ "_" +:+ str_int (tid o)
  end.

(** The supported closed set: managed values, name wrappers, plain
    literals and device descriptors, and slices, dictionaries, lists and
    tuples of supported values.  An object of any other class, anywhere in
    the value, is not supported. *)
Fixpoint supported (v : PyVal) : bool :=
  match v with
  | VSlice start stop step => supported start && supported stop && supported step
  | VDict items =>
      forallb (fun kv => supported (fst kv) && supported (snd kv)) items
  | VList elts | VTuple elts => forallb supported elts
  | VOther _ _ => false
  | _ => true
  end.

(** [f] resolves a value a first time and [g] a second time: [v] settles
    when [g] leaves the result of [f] as it is, and [x] is settled when [g]
    leaves it as it is. *)
Definition settles (f g : PyVal -> Res PyVal) (v : PyVal) : Prop :=
  forall x, f v = Ok x -> g x = Ok x.
Definition settled (g : PyVal -> Res PyVal) (x : PyVal) : Prop := g x = Ok x.

(** ** Dictionaries *)

(** No stored key equals a key stored after it. *)
Fixpoint distinct_keys {K V} (eqb : K -> K -> bool) (d : list (K * V)) : Prop :=
  match d with
  | [] => True
  | (k0, _) :: d' =>
      Forall (fun kv => eqb k0 (fst kv) = false) d' /\ distinct_keys eqb d'
  end.

(** Storing every entry of [d] into [acc], in order. *)
Definition rebuild {K V} (eqb : K -> K -> bool) (acc d : list (K * V))
    : list (K * V) :=
  fold_left (fun acc kv => dict_set eqb (fst kv) (snd kv) acc) d acc.

(** ** Forward nodes *)

(** [isinstance(t, IRObject)] *)
Definition isinstance_IRObject (t : PyVal) : bool :=
  match t with VIRObject _ => true | _ => false end.

(** The name of the intermediate value with unique id [t]. *)
Definition im_name (t : Z) : string := "im_output_" +:+ str_int t.

(** How the nested branch binds the top-level outputs: a managed slot to
    its own name, any other slot to the next intermediate name. *)
Inductive Bound : list PyVal -> list string -> list string -> Prop :=
| Bound_nil : Bound [] [] []
| Bound_managed o outs targets ims :
    Bound outs targets ims ->
    Bound (VIRObject o :: outs) (managed_name o None :: targets) ims
| Bound_intermediate t outs im targets ims :
    isinstance_IRObject t = false ->
    Bound outs targets ims ->
    Bound (t :: outs) (im :: targets) (im :: ims).

(** A path that starts with an index into a list of length [n]. *)
Definition top_indexed (n : nat) (path : list PyVal) : Prop :=
  exists i rest, path = VInt i :: rest /\ 0 <= i < Z.of_nat n.

(** ** Adapters *)

(** A primitive whose inputs and outputs are supported values. *)
Definition renderable (prim : Prim) : Prop :=
  Forall (fun v => supported v = true) (prim_inputs prim) /\
  Forall (fun v => supported v = true) (prim_outputs prim).

(** The legality conditions in the words of the specification.  Ordering:
    no collective primitive is followed by a non-collective one.  Device
    groups: all collective primitives target the same device set. *)
Fixpoint spec_ordering_ok (prims : list Prim) : bool :=
  match prims with
  | [] => true
  | p :: rest =>
      if isinstance_CommPrim p then forallb isinstance_CommPrim rest
      else spec_ordering_ok rest
  end.

Definition spec_devices_ok (prims : list Prim) : bool :=
  let colls := List.filter isinstance_CommPrim prims in
  forallb (fun p =>
    forallb (fun q => bool_decide (device_set p = device_set q)) colls) colls.

Definition spec_async_legal (prims : list Prim) : bool :=
  spec_ordering_ok prims && spec_devices_ok prims.

(** The positions of the non-collective primitives in [prims]. *)
Fixpoint positions (prims : list Prim) : list nat :=
  match prims with
  | [] => []
  | p :: rest =>
      if isinstance_CommPrim p then map S (positions rest)
      else 0%nat :: map S (positions rest)
  end.

(** Whether the dictionary of keyword arguments carries the flag. *)
Definition has_async_flag (kwargs : list (string * PyVal)) : bool :=
  existsb (fun kv => String.eqb (fst kv) "async_op") kwargs.

(** ** Backward cells *)

(** Dropping from a list of values, or of tensors, those equal to [g]. *)
Definition values_without (g : IRObject) (l : list PyVal) : list PyVal :=
  List.filter
    (fun t => match as_IRSubTensor t with
              | Some o => negb (irobject_eqb o g)
              | None => true
              end) l.

Definition tensors_without (g : IRObject) (l : list IRObject) : list IRObject :=
  List.filter (fun o => negb (irobject_eqb o g)) l.

(** The same cell with other inputs, or other outputs. *)
Definition with_inputs (c : IRCell) (l : list PyVal) : IRCell :=
  MkIRCell (isfw c) (mirror c) l (cell_outputs c).
Definition with_outputs (c : IRCell) (l : list PyVal) : IRCell :=
  MkIRCell (isfw c) (mirror c) (cell_inputs c) l.

(** ** Sample nodes *)

(** A rule that renders a plain call, and a registry holding it for every
    signature; used to run the emitters on concrete nodes. *)
Definition call_rule : EmitRule :=
  fun node inputs kwargs runtime_devid plan_ndevs runtime_ndevs =>
    Ok (fw_signature node +:+ "(" +:+ join ", " inputs +:+ ")").

Definition call_emitter : FuncEmission :=
  {| _emit_rules := fun signature => Ok call_rule |}.

Definition no_timer : CompileFlag := {| line_timer := false |}.

Definition tensor (nm : string) (t : Z) : IRObject :=
  MkIRObject nm t false ClsIRSubTensor None EmptyString.

Definition all_reduce (oid : nat) (devs : list Z) (i o : Z) : Prim :=
  {| prim_oid := oid; isinstance_CommPrim := true;
     prim_inputs := [VIRObject (tensor "t" i)];
     prim_outputs := [VIRObject (tensor "t" o)];
     prim_kwargs := [("ranks", VList (map VInt devs))];
     prim_signature := "nnscaler.runtime.adapter.all_reduce";
     prim_device := devs |}.

Definition move (oid : nat) (i o : Z) : Prim :=
  {| prim_oid := oid; isinstance_CommPrim := false;
     prim_inputs := [VIRObject (tensor "t" i)];
     prim_outputs := [VIRObject (tensor "t" o)];
     prim_kwargs := [];
     prim_signature := "nnscaler.runtime.adapter.move";
     prim_device := [0] |}.

Definition adapter_of (ps : list Prim) : IRAdapter :=
  {| device := [0]; differentiable := false; custom := false; prims := ps;
     adapter_oid := 0; adapter_inputs := []; adapter_outputs := [];
     adapter_kwargs := []; adapter_signature := "adapter" |}.

(** ** Resolved values *)

(** A value that holds no managed value, no device descriptor and no
    foreign object: only name wrappers, literals and containers of them. *)
Fixpoint resolved (v : PyVal) : bool :=
  match v with
  | VIRObject _ | VDevice _ _ | VOther _ _ => false
  | VSlice start stop step => resolved start && resolved stop && resolved step
  | VDict items =>
      forallb (fun kv => resolved (fst kv) && resolved (snd kv)) items
  | VList elts | VTuple elts => forallb resolved elts
  | _ => true
  end.

(** Whether a managed value flagged as an attribute occurs in the value. *)
Fixpoint has_attr (v : PyVal) : bool :=
  match v with
  | VIRObject o => is_attr o
  | VSlice start stop step => has_attr start || has_attr stop || has_attr step
  | VDict items =>
      existsb (fun kv => has_attr (fst kv) || has_attr (snd kv)) items
  | VList elts | VTuple elts => existsb has_attr elts
  | _ => false
  end.

(** ** The output walk *)

(** Whether a managed value with unique id [k] is reached by the output
    walk: through lists, tuples and the values of dictionaries. *)
Fixpoint occurs_in (k : Z) (v : PyVal) : bool :=
  match v with
  | VIRObject o => (tid o =? k)%Z
  | VList elts | VTuple elts => existsb (occurs_in k) elts
  | VDict items => existsb (fun kv => occurs_in k (snd kv)) items
  | _ => false
  end.

(** Whether [irobj_path] has an entry for the unique id [k]. *)
Definition recorded (k : Z) (irobj_path : list (IRObject * list PyVal)) : bool :=
  existsb (fun kv => (tid (fst kv) =? k)%Z) irobj_path.

(** The entries of [irobj_path] below the top level, and the top-level
    outputs that are not managed values. *)
Definition deep_entries (irobj_path : list (IRObject * list PyVal))
    : list (IRObject * list PyVal) :=
  List.filter (fun kv => negb (length (snd kv) =? 1)%nat) irobj_path.

Definition unmanaged_slots (outs : list PyVal) : list PyVal :=
  List.filter (fun t => negb (isinstance_IRObject t)) outs.

(** ** Gradients of a forward cell *)

(** Whether the gradient of [o] has unique id [k]. *)
Definition grad_is (k : Z) (o : IRObject) : bool :=
  match grad o with
  | Some g => (tid g =? k)%Z
  | None => false
  end.

(** The last tensor among the inputs and then the outputs of [fwop] whose
    gradient is [g]. *)
Definition last_with_grad (fwop : IRCell) (g : IRObject) : option IRObject :=
  last (List.filter (grad_is (tid g))
          (omap as_IRSubTensor (cell_inputs fwop ++ cell_outputs fwop))).

(** The gradients of a list of tensors. *)
Definition grads_of (ts : list IRObject) : list IRObject := omap grad ts.

(** ** The statements of the emitters *)

(** The extraction statement of an entry of [irobj_path] below the top
    level: the name of the managed value is assigned the top-level binding
    at the first path step, subscripted by every further step in order. *)
Definition extraction_statement (targets : list string)
    (entry : IRObject * list PyVal) (statement : string) : Prop :=
  exists i steps out,
    snd entry = VInt i :: steps /\ 0 <= i /\
    targets !! Z.to_nat i = Some out /\
    statement
    = managed_name (fst entry) None +:+ " = " +:+
      fold_left (fun out p => out +:+ "[" +:+ py_repr p +:+ "]") steps out.

(** The timer probe with a label, and the call statement of a primitive. *)
Definition timer_probe (label : string) : string :=
  "nnscaler.runtime.function.print_time(" +:+ repr_str label +:+ ")".

Definition call_statement (outputs signature itensors kwargs : string)
    : string :=
  outputs +:+ " = " +:+ signature +:+ "(" +:+ itensors +:+ ", " +:+ kwargs
  +:+ ")".

(** The statements of one primitive under the flag [async_op] that the
    analysis left: the timer probe when line timing is on, then the call,
    whose operands are the rendered inputs, keyword arguments (with the
    flag for a collective under [async_op]) and outputs. *)
Definition prim_statements (flags : CompileFlag) (prefix_attr : option string)
    (async_op : bool) (prim : Prim) (block : list string) : Prop :=
  exists itensors kwargs outputs,
    itensors_of prefix_attr prim = Ok itensors /\
    kwargs_name (emitted_kwargs async_op prim) = Ok kwargs /\
    return_name (prim_outputs prim) false None = Ok outputs /\
    block
    = (if line_timer flags then [timer_probe (prim_signature prim)] else [])
      ++ [call_statement outputs (prim_signature prim) itensors kwargs].

(** * Properties *)

(** ** Text lemmas *)

Lemma app_cons (c : ascii) (s t : string) :
  String c s +:+ t = String c (s +:+ t).
Proof. reflexivity. Qed.

Lemma app_empty_l (t : string) : EmptyString +:+ t = t.
Proof. reflexivity. Qed.

Lemma app_assoc_str (s t u : string) : (s +:+ t) +:+ u = s +:+ (t +:+ u).
Proof.
  induction s as [|c s IH]; [reflexivity|].
  rewrite !app_cons. by rewrite IH.
Qed.

Lemma contains_char_app (c : ascii) (s t : string) :
  contains_char c (s +:+ t) = contains_char c s || contains_char c t.
Proof.
  induction s as [|c' s IH]; [reflexivity|].
  rewrite app_cons. simpl. rewrite IH. by rewrite orb_assoc.
Qed.

(** A decimal numeral holds no underscore. *)
Lemma pretty_N_go_no_underscore (x : N) (s : string) :
  contains_char "_" s = false ->
  contains_char "_" (pretty_N_go x s) = false.
Proof.
  revert s. induction (N.lt_wf_0 x) as [x _ IH]; intros s Hs.
  destruct (decide (x = 0)%N) as [->|Hx].
  - by rewrite pretty_N_go_0.
  - rewrite pretty_N_go_step by lia.
    apply IH; [apply N.div_lt; lia|].
    simpl. rewrite Hs. unfold pretty_N_char.
    by repeat case_match.
Qed.

Lemma str_int_no_underscore (z : Z) : contains_char "_" (str_int z) = false.
Proof.
  assert (HN : forall n : N, contains_char "_" (pretty n) = false).
  { intros n. unfold pretty, pretty_N. case_decide; [reflexivity|].
    by apply pretty_N_go_no_underscore. }
  unfold str_int, pretty, pretty_Z. destruct z as [|p|p].
  - reflexivity.
  - apply HN.
  - rewrite contains_char_app. unfold pretty, pretty_positive. rewrite HN.
    reflexivity.
Qed.

(** Two texts that end in an underscore and a numeral agree on the numeral:
    the last underscore is the separator. *)
Lemma underscore_suffix_inj (a b d1 d2 : string) :
  contains_char "_" d1 = false ->
  contains_char "_" d2 = false ->
  a +:+ "_" +:+ d1 = b +:+ "_" +:+ d2 ->
  d1 = d2.
Proof.
  intros H1 H2. revert b.
  induction a as [|c a IH]; intros [|c' b] Heq.
  - by injection Heq.
  - change (String "_" d1 = String c' (b +:+ "_" +:+ d2)) in Heq.
    injection Heq as _ Heq.
    rewrite Heq, contains_char_app in H1. simpl in H1.
    by rewrite orb_true_r in H1.
  - change (String c (a +:+ "_" +:+ d1) = String "_" d2) in Heq.
    injection Heq as _ Heq.
    rewrite <- Heq, contains_char_app in H2. simpl in H2.
    by rewrite orb_true_r in H2.
  - change (String c (a +:+ "_" +:+ d1) = String c' (b +:+ "_" +:+ d2)) in Heq.
    injection Heq as _ Heq. exact (IH b Heq).
Qed.

(** ** Comprehensions and dictionaries *)

Lemma mapM_Raise {A B} (f : A -> Res B) (l : list A) (e : Exn) :
  mapM f l = Raise e -> Exists (fun x => f x = Raise e) l.
Proof.
  induction l as [|x l IH]; simpl; [discriminate|].
  destruct (f x) as [y|e'] eqn:Ex.
  - destruct (mapM f l) as [ys|e'']; [discriminate|].
    intros [= ->]. right. by apply IH.
  - intros [= ->]. by left.
Qed.

Lemma mapM_Ok {A B} (f : A -> Res B) (l : list A) :
  Forall (fun x => exists y, f x = Ok y) l -> exists ys, mapM f l = Ok ys.
Proof.
  induction 1 as [|x l [y Hy] _ [ys IH]]; simpl; [by eexists|].
  rewrite Hy, IH. by eexists.
Qed.

Lemma mapM_length {A B} (f : A -> Res B) (l : list A) (ys : list B) :
  mapM f l = Ok ys -> length ys = length l.
Proof.
  revert ys. induction l as [|x l IH]; intros ys; simpl.
  - by intros [= <-].
  - destruct (f x); [|discriminate].
    destruct (mapM f l) as [zs|]; [|discriminate].
    intros [= <-]. simpl. by rewrite (IH zs).
Qed.

Lemma forallb_Forall_ext {A} (f g : A -> bool) (l : list A) :
  Forall (fun x => f x = g x) l -> forallb f l = forallb g l.
Proof.
  induction 1 as [|x l Hx _ IH]; [reflexivity|]. simpl. by rewrite Hx, IH.
Qed.

Lemma is_ok_mapM {A B} (f : A -> Res B) (l : list A) :
  is_ok (mapM f l) = forallb (fun x => is_ok (f x)) l.
Proof.
  induction l as [|x l IH]; [reflexivity|]. simpl.
  destruct (f x); [|reflexivity]. simpl. rewrite <- IH.
  by destruct (mapM f l).
Qed.

Lemma dict_comp_Raise (f : PyVal -> Res PyVal) (l acc : list (PyVal * PyVal))
    (e : Exn) :
  dict_comp f l acc = Raise e ->
  Exists (fun kv => f (fst kv) = Raise e \/ f (snd kv) = Raise e) l.
Proof.
  revert acc. induction l as [|[k v] l IH]; intros acc; simpl; [discriminate|].
  destruct (f k) as [k'|e'] eqn:Ek; [|intros [= ->]; left; by left].
  destruct (f v) as [v'|e'] eqn:Ev; [|intros [= ->]; left; by right].
  intros Hl. right. by eapply IH.
Qed.

Lemma dict_comp_Ok (f : PyVal -> Res PyVal) (l acc : list (PyVal * PyVal)) :
  Forall (fun kv => (exists x, f (fst kv) = Ok x) /\
                    (exists x, f (snd kv) = Ok x)) l ->
  exists d, dict_comp f l acc = Ok d.
Proof.
  intros Hall. revert acc.
  induction Hall as [|[k v] l [[k' Hk] [v' Hv]] _ IH]; intros acc; simpl;
    [by eexists|].
  simpl in Hk, Hv. rewrite Hk, Hv. apply IH.
Qed.

Lemma is_ok_dict_comp (f : PyVal -> Res PyVal) (l acc : list (PyVal * PyVal)) :
  is_ok (dict_comp f l acc)
  = forallb (fun kv => is_ok (f (fst kv)) && is_ok (f (snd kv))) l.
Proof.
  revert acc. induction l as [|[k v] l IH]; intros acc; [reflexivity|].
  simpl. destruct (f k); [|reflexivity]. destruct (f v); [|reflexivity].
  simpl. apply IH.
Qed.

Section dict_rebuild.
Context {K V : Type} (eqb : K -> K -> bool).

Lemma dict_set_keys (k : K) (v : V) (d : list (K * V)) (P : K -> Prop) :
  P k -> Forall (fun kv => P (fst kv)) d ->
  Forall (fun kv => P (fst kv)) (dict_set eqb k v d).
Proof.
  intros Hk. induction 1 as [|[k0 v0] d' H0 Hd' IH]; simpl.
  - by repeat constructor.
  - simpl in H0. destruct (eqb k0 k); constructor; simpl; auto.
Qed.

Lemma dict_set_entries (k : K) (v : V) (d : list (K * V))
    (PK : K -> Prop) (PV : V -> Prop) :
  PK k -> PV v ->
  Forall (fun kv => PK (fst kv) /\ PV (snd kv)) d ->
  Forall (fun kv => PK (fst kv) /\ PV (snd kv)) (dict_set eqb k v d).
Proof.
  intros Hk Hv. induction 1 as [|[k0 v0] d' [H1 H2] Hd' IH]; simpl.
  - by repeat constructor.
  - simpl in H1, H2. destruct (eqb k0 k); constructor; simpl; auto.
Qed.

Lemma dict_set_fresh (k : K) (v : V) (d : list (K * V)) :
  Forall (fun kv => eqb (fst kv) k = false) d ->
  dict_set eqb k v d = d ++ [(k, v)].
Proof.
  induction 1 as [|[k0 v0] d' H0 _ IH]; simpl; [reflexivity|].
  simpl in H0. rewrite H0. by rewrite IH.
Qed.

Lemma dict_set_distinct (k : K) (v : V) (d : list (K * V)) :
  distinct_keys eqb d -> distinct_keys eqb (dict_set eqb k v d).
Proof.
  induction d as [|[k0 v0] d' IH]; simpl.
  - intros _. split; [constructor|exact I].
  - intros [Hall Hd]. destruct (eqb k0 k) eqn:E; simpl.
    + by split.
    + split; [|by apply IH].
      by apply (dict_set_keys k v d' (fun k' => eqb k0 k' = false)).
Qed.

Lemma distinct_keys_app_cons (d1 : list (K * V)) (k : K) (v : V)
    (d2 : list (K * V)) :
  distinct_keys eqb (d1 ++ (k, v) :: d2) ->
  Forall (fun kv => eqb (fst kv) k = false) d1.
Proof.
  induction d1 as [|[k0 v0] d1 IH]; simpl; [constructor|].
  intros [Hall Hd]. constructor; [|by apply IH].
  rewrite List.Forall_app in Hall. destruct Hall as [_ Hall].
  by inversion Hall.
Qed.

Lemma rebuild_distinct (acc d : list (K * V)) :
  distinct_keys eqb (acc ++ d) -> rebuild eqb acc d = acc ++ d.
Proof.
  unfold rebuild. revert acc.
  induction d as [|[k v] d IH]; intros acc Hd; simpl.
  - by rewrite app_nil_r.
  - rewrite (dict_set_fresh k v acc) by by eapply distinct_keys_app_cons.
    rewrite IH; rewrite <- app_assoc; done.
Qed.
End dict_rebuild.

(** ** The naming resolver *)

(** The resolver raises nothing but [ValueError]. *)
Lemma _safe_repr_value_raises (v : PyVal) (p : option string) (e : Exn) :
  _safe_repr_value v p = Raise e -> e = ValueError.
Proof.
  revert e.
  induction v as [nm|o|a b c IHa IHb IHc|items IH|l IH|l IH
                  |z|s|b|t| |b| |t|t i|r s] using PyVal_nested_ind;
    intros e He; simpl in He; try discriminate.
  - destruct (_safe_repr_value a p) eqn:Ea; [|injection He as <-; by apply IHa].
    destruct (_safe_repr_value b p) eqn:Eb; [|injection He as <-; by apply IHb].
    destruct (_safe_repr_value c p) eqn:Ec; [|injection He as <-; by apply IHc].
    discriminate.
  - destruct (dict_comp _ items []) eqn:Ed; [discriminate|].
    injection He as <-. apply dict_comp_Raise in Ed.
    apply List.Exists_exists in Ed as ([k x] & Hin & Hkx).
    rewrite List.Forall_forall in IH. destruct (IH _ Hin) as [IHk IHx].
    destruct Hkx; [by apply IHk|by apply IHx].
  - destruct (mapM _ l) eqn:El; [discriminate|].
    injection He as <-. apply mapM_Raise in El.
    apply List.Exists_exists in El as (x & Hin & Hx).
    rewrite List.Forall_forall in IH. by apply (IH x Hin).
  - destruct (mapM _ l) eqn:El; [discriminate|].
    injection He as <-. apply mapM_Raise in El.
    apply List.Exists_exists in El as (x & Hin & Hx).
    rewrite List.Forall_forall in IH. by apply (IH x Hin).
  - by injection He as <-.
Qed.

(** The resolver returns exactly on the supported values. *)
Lemma _safe_repr_value_supported (v : PyVal) (p : option string) :
  is_ok (_safe_repr_value v p) = supported v.
Proof.
  induction v as [nm|o|a b c IHa IHb IHc|items IH|l IH|l IH
                  |z|s|b|t| |b| |t|t i|r s] using PyVal_nested_ind;
    simpl; try reflexivity.
  - rewrite <- IHa, <- IHb, <- IHc.
    destruct (_safe_repr_value a p); [|reflexivity].
    destruct (_safe_repr_value b p); [|reflexivity].
    by destruct (_safe_repr_value c p).
  - transitivity (is_ok (dict_comp (fun v => _safe_repr_value v p) items []));
      [by destruct (dict_comp _ items [])|].
    rewrite is_ok_dict_comp. apply forallb_Forall_ext.
    eapply List.Forall_impl; [|exact IH]. by intros [k x] [-> ->].
  - transitivity (is_ok (mapM (fun v => _safe_repr_value v p) l));
      [by destruct (mapM _ l)|].
    rewrite is_ok_mapM. by apply forallb_Forall_ext.
  - transitivity (is_ok (mapM (fun v => _safe_repr_value v p) l));
      [by destruct (mapM _ l)|].
    rewrite is_ok_mapM. by apply forallb_Forall_ext.
Qed.

Lemma _safe_repr_value_Ok (v : PyVal) (p : option string) :
  supported v = true -> exists x, _safe_repr_value v p = Ok x.
Proof.
  rewrite <- (_safe_repr_value_supported v p).
  destruct (_safe_repr_value v p); [by eexists|discriminate].
Qed.

(** ** [_safe_repr_value] applied to its own result *)

Section resolve_twice.
Variables f g : PyVal -> Res PyVal.

Lemma mapM_settles (l l' : list PyVal) :
  Forall (settles f g) l -> mapM f l = Ok l' -> mapM g l' = Ok l'.
Proof.
  intros Hall. revert l'.
  induction Hall as [|v l Hv _ IH]; intros l' Hl; simpl in Hl.
  - by injection Hl as <-.
  - destruct (f v) as [x|] eqn:Ex; [|discriminate].
    destruct (mapM f l) as [xs|] eqn:Exs; [|discriminate].
    injection Hl as <-. simpl. rewrite (Hv x Ex), (IH xs eq_refl). done.
Qed.

Lemma dict_comp_settles (l acc d : list (PyVal * PyVal)) :
  Forall (fun kv => settles f g (fst kv) /\ settles f g (snd kv)) l ->
  Forall (fun kv => settled g (fst kv) /\ settled g (snd kv)) acc ->
  distinct_keys py_eqb acc ->
  dict_comp f l acc = Ok d ->
  Forall (fun kv => settled g (fst kv) /\ settled g (snd kv)) d /\
  distinct_keys py_eqb d.
Proof.
  intros Hall. revert acc.
  induction Hall as [|[k v] l [Hk Hv] _ IH]; intros acc Hacc Hd Hl;
    simpl in Hl.
  - injection Hl as <-. by split.
  - simpl in Hk, Hv.
    destruct (f k) as [k'|] eqn:Ek; [|discriminate].
    destruct (f v) as [v'|] eqn:Ev; [|discriminate].
    apply (IH (dict_set py_eqb k' v' acc)); [|by apply dict_set_distinct|done].
    apply (dict_set_entries py_eqb k' v' acc (settled g) (settled g));
      [by apply Hk|by apply Hv|done].
Qed.

Lemma dict_comp_settled (d acc : list (PyVal * PyVal)) :
  Forall (fun kv => settled g (fst kv) /\ settled g (snd kv)) d ->
  dict_comp g d acc = Ok (rebuild py_eqb acc d).
Proof.
  intros Hall. revert acc.
  induction Hall as [|[k v] d [Hk Hv] _ IH]; intros acc; simpl;
    [reflexivity|].
  simpl in Hk, Hv. unfold settled in Hk, Hv. rewrite Hk, Hv. apply IH.
Qed.
End resolve_twice.

Lemma _safe_repr_value_settles (v : PyVal) (p p' : option string) :
  settles (fun v => _safe_repr_value v p) (fun v => _safe_repr_value v p') v.
Proof.
  induction v as [nm|o|a b c IHa IHb IHc|items IH|l IH|l IH
                  |z|s|b|t| |b| |t|t i|r s] using PyVal_nested_ind;
    intros x Hx; simpl in Hx; try (by injection Hx as <-); try discriminate.
  - destruct (_safe_repr_value a p) as [a'|] eqn:Ea; [|discriminate].
    destruct (_safe_repr_value b p) as [b'|] eqn:Eb; [|discriminate].
    destruct (_safe_repr_value c p) as [c'|] eqn:Ec; [|discriminate].
    injection Hx as <-. simpl.
    by rewrite (IHa _ Ea), (IHb _ Eb), (IHc _ Ec).
  - destruct (dict_comp _ items []) as [d|] eqn:Ed; [|discriminate].
    injection Hx as <-. simpl.
    eapply dict_comp_settles in Ed as [Hd1 Hd2];
      [|exact IH|constructor|exact I].
    rewrite (dict_comp_settled _ d [] Hd1).
    by rewrite (rebuild_distinct py_eqb [] d Hd2).
  - destruct (mapM _ l) as [l'|] eqn:El; [|discriminate].
    injection Hx as <-. simpl.
    by rewrite (mapM_settles _ _ l l' IH El).
  - destruct (mapM _ l) as [l'|] eqn:El; [|discriminate].
    injection Hx as <-. simpl.
    by rewrite (mapM_settles _ _ l l' IH El).
Qed.

(** C10: value resolution is idempotent.  On every value of the supported
    closed set [_safe_repr_value] returns some [x], and resolving [x]
    again, under the same or any other prefix, returns [x]; the same holds
    whenever the first call returns.  An [IRValue] is returned as it is,
    so a name is not resolved or prefixed twice. *)
Theorem _safe_repr_value_idempotent :
  (forall (v : PyVal) (prefix_attr : option string),
      supported v = true ->
      exists x,
        _safe_repr_value v prefix_attr = Ok x /\
        forall prefix_attr', _safe_repr_value x prefix_attr' = Ok x) /\
  (forall (v : PyVal) (prefix_attr : option string) (x : PyVal),
      _safe_repr_value v prefix_attr = Ok x ->
      forall prefix_attr', _safe_repr_value x prefix_attr' = Ok x) /\
  (forall (nm : string) (prefix_attr : option string),
      _safe_repr_value (VIRValue nm) prefix_attr = Ok (VIRValue nm)).
Proof.
  split; [|split].
  - intros v p Hv. destruct (_safe_repr_value_Ok v p Hv) as [x Hx].
    exists x. split; [exact Hx|].
    intros p'. by apply (_safe_repr_value_settles v p p').
  - intros v p x Hx p'. by apply (_safe_repr_value_settles v p p').
  - reflexivity.
Qed.

Lemma _safe_repr_value_idempotent_witness :
  let o := MkIRObject "layer.weight" 7 true ClsIRSubTensor None EmptyString in
  let v := VDict [(VDevice "cpu" None, VList [VIRObject o; VInt 1]);
                  (VStr "cpu", VTuple [VSlice VNone (VInt 3) VNone])] in
  let x := VDict [(VStr "cpu", VTuple [VSlice VNone (VInt 3) VNone])] in
  supported v = true /\
  _safe_repr_value v (Some "self.") = Ok x /\
  _safe_repr_value x (Some "self.") = Ok x /\
  exists y,
    _safe_repr_value v None = Ok y /\
    forall prefix_attr', _safe_repr_value y prefix_attr' = Ok y.
Proof.
  intros o v x. split; [reflexivity|]. split; [reflexivity|]. split.
  - apply (proj1 (proj2 _safe_repr_value_idempotent) v (Some "self.") x).
    reflexivity.
  - apply (proj1 _safe_repr_value_idempotent v None). reflexivity.
Defined.

(** ** The name of a managed value *)

Lemma tensor_name_managed (o : IRObject) (prefix_attr : option string) :
  tensor_name (VIRObject o) prefix_attr = Ok (managed_name o prefix_attr).
Proof.
  unfold tensor_name, managed_name. simpl.
  destruct prefix_attr as [p|]; [destruct (is_attr o)|]; reflexivity.
Qed.

(** Every managed name is some text, an underscore, and the numeral of the
    unique id. *)
Lemma managed_name_shape (o : IRObject) (prefix_attr : option string) :
  exists a, managed_name o prefix_attr = a +:+ "_" +:+ str_int (tid o).
Proof.
  unfold managed_name.
  destruct prefix_attr as [p|]; [destruct (is_attr o)|]; eauto.
  exists (p +:+ replace "." "_" (name o)). by rewrite app_assoc_str.
Qed.

Lemma managed_name_inj (a b : IRObject) (pa pb : option string) :
  managed_name a pa = managed_name b pb -> tid a = tid b.
Proof.
  destruct (managed_name_shape a pa) as [x ->].
  destruct (managed_name_shape b pb) as [y ->].
  intros Heq. apply underscore_suffix_inj in Heq;
    [|apply str_int_no_underscore..].
  by apply (inj pretty) in Heq.
Qed.

(** C5: two managed values with distinct unique ids get different
    identifiers from [tensor_name] under one prefix, whatever their base
    names (so also when the names collide after the separator is
    normalised), and [tensor_name] is a function of its arguments: the same
    value and prefix give the same text. *)
Theorem tensor_name_unique_stable :
  (forall (a b : IRObject) (prefix_attr : option string),
      tid a <> tid b ->
      exists na nb,
        tensor_name (VIRObject a) prefix_attr = Ok na /\
        tensor_name (VIRObject b) prefix_attr = Ok nb /\
        na <> nb) /\
  (forall (v : PyVal) (prefix_attr : option string) (s1 s2 : string),
      tensor_name v prefix_attr = Ok s1 ->
      tensor_name v prefix_attr = Ok s2 ->
      s1 = s2).
Proof.
  split.
  - intros a b prefix_attr Hne.
    exists (managed_name a prefix_attr), (managed_name b prefix_attr).
    rewrite !tensor_name_managed. repeat split.
    intros Heq. by apply Hne, (managed_name_inj a b prefix_attr prefix_attr).
  - intros v prefix_attr s1 s2 H1 H2. rewrite H1 in H2. by injection H2.
Qed.

(** The separator collision [a.1] / [a_1], with ids 1 and 2. *)
Lemma tensor_name_unique_stable_witness :
  let a := MkIRObject "a.1" 1 false ClsIRSubTensor None EmptyString in
  let b := MkIRObject "a_1" 2 false ClsIRSubTensor None EmptyString in
  tid a <> tid b /\
  replace "." "_" (name a) = replace "." "_" (name b) /\
  exists na nb,
    tensor_name (VIRObject a) (Some "self.") = Ok na /\
    tensor_name (VIRObject b) (Some "self.") = Ok nb /\
    na <> nb.
Proof.
  intros a b. split; [|split].
  - vm_compute. discriminate.
  - reflexivity.
  - apply (proj1 tensor_name_unique_stable a b (Some "self.")).
    vm_compute. discriminate.
Defined.

Lemma tensor_name_raises (v : PyVal) (p : option string) (e : Exn) :
  tensor_name v p = Raise e -> e = ValueError.
Proof.
  unfold tensor_name. destruct (_safe_repr_value v p) eqn:E; [discriminate|].
  intros [= <-]. by eapply _safe_repr_value_raises.
Qed.

Lemma tensor_name_Ok (v : PyVal) (p : option string) :
  supported v = true -> exists n, tensor_name v p = Ok n.
Proof.
  intros Hv. unfold tensor_name.
  destruct (_safe_repr_value_Ok v p Hv) as [x ->]. by eexists.
Qed.

(** ** [tuple_name], [return_name], [kwargs_name] *)

Lemma names_of_all_skipped (tensors : list PyVal) (skip_attr : bool)
    (prefix_attr : option string) :
  Forall (fun t => skipped t skip_attr = true) tensors ->
  names_of tensors skip_attr prefix_attr = Ok [].
Proof.
  induction 1 as [|t rest Ht _ IH]; [reflexivity|].
  simpl. by rewrite Ht.
Qed.

Lemma names_of_raises (l : list PyVal) (skip_attr : bool) (p : option string)
    (e : Exn) :
  names_of l skip_attr p = Raise e -> e = ValueError.
Proof.
  induction l as [|t l IH]; simpl; [discriminate|].
  destruct (skipped t skip_attr); [exact IH|].
  destruct (tensor_name t p) eqn:Et;
    [|intros [= <-]; by eapply tensor_name_raises].
  destruct (names_of l skip_attr p); [discriminate|].
  intros [= <-]. by apply IH.
Qed.

Lemma names_of_Ok (l : list PyVal) (skip_attr : bool) (p : option string) :
  Forall (fun v => supported v = true) l ->
  exists names, names_of l skip_attr p = Ok names.
Proof.
  induction 1 as [|t l Ht _ [names IH]]; simpl; [by eexists|].
  destruct (skipped t skip_attr); [by eexists|].
  destruct (tensor_name_Ok t p Ht) as [n ->]. rewrite IH. by eexists.
Qed.

(** C9: for a one-element list whose element is rendered (a supported
    value, not skipped as an attribute), [tuple_name] returns [(n, )] for
    the name [n] of the element: a comma and a blank stand right before the
    closing bracket.  For a list whose elements are all skipped, the empty
    list among them, it returns [()]. *)
Theorem tuple_name_trailing_comma :
  (forall (t : PyVal) (skip_attr : bool) (prefix_attr : option string),
      skipped t skip_attr = false ->
      supported t = true ->
      exists n,
        tensor_name t prefix_attr = Ok n /\
        tuple_name [t] skip_attr prefix_attr = Ok ("(" +:+ n +:+ ", " +:+ ")")) /\
  (forall (tensors : list PyVal) (skip_attr : bool)
          (prefix_attr : option string),
      Forall (fun t => skipped t skip_attr = true) tensors ->
      tuple_name tensors skip_attr prefix_attr = Ok "()").
Proof.
  split.
  - intros t skip_attr prefix_attr Hskip Ht.
    destruct (tensor_name_Ok t prefix_attr Ht) as [n Hn].
    exists n. split; [exact Hn|].
    unfold tuple_name. simpl. rewrite Hskip, Hn. simpl.
    unfold join. simpl. by rewrite !app_assoc_str.
  - intros tensors skip_attr prefix_attr Hall.
    unfold tuple_name. by rewrite names_of_all_skipped.
Qed.

Lemma tuple_name_trailing_comma_witness :
  let x := VIRObject (MkIRObject "x" 1 false ClsIRTensor None EmptyString) in
  let w := VIRObject (MkIRObject "w" 2 true ClsIRTensor None EmptyString) in
  (exists n, tensor_name x None = Ok n /\
             tuple_name [x] false None = Ok ("(" +:+ n +:+ ", " +:+ ")")) /\
  tuple_name [x] false None = Ok "(x_1, )" /\
  tuple_name [w] true None = Ok "()" /\
  tuple_name [] false None = Ok "()".
Proof.
  intros x w. split; [|split; [|split]].
  - apply (proj1 tuple_name_trailing_comma x false None); reflexivity.
  - reflexivity.
  - apply (proj2 tuple_name_trailing_comma [w] true None).
    repeat constructor.
  - apply (proj2 tuple_name_trailing_comma [] false None). constructor.
Defined.

Lemma modify_objects_of_complex_Ok (v : PyVal)
    (modifier : IRObject -> Res PyVal) :
  (forall o, exists x, modifier o = Ok x) ->
  exists x, modify_objects_of_complex v modifier = Ok x.
Proof.
  intros Hmod.
  induction v as [nm|o|a b c IHa IHb IHc|items IH|l IH|l IH
                  |z|s|b|t| |b| |t|t i|r s] using PyVal_nested_ind;
    simpl; try (by eexists).
  - apply Hmod.
  - destruct IHa as [a' ->], IHb as [b' ->], IHc as [c' ->]. by eexists.
  - destruct (dict_comp_Ok (fun v => modify_objects_of_complex v modifier)
                items [] IH) as [d ->]. by eexists.
  - destruct (mapM_Ok (fun v => modify_objects_of_complex v modifier) l IH)
      as [ys ->]. by eexists.
  - destruct (mapM_Ok (fun v => modify_objects_of_complex v modifier) l IH)
      as [ys ->]. by eexists.
Qed.

Lemma kwargs_name_Ok (kwargs : list (string * PyVal)) :
  exists s, kwargs_name kwargs = Ok s.
Proof.
  unfold kwargs_name.
  assert (H : exists names, kwargs_name_items kwargs = Ok names).
  { induction kwargs as [|[nm v] rest [names IH]]; simpl; [by eexists|].
    destruct (modify_objects_of_complex_Ok v (name_modifier None)) as [x ->].
    - intros o. unfold name_modifier. rewrite tensor_name_managed. by eexists.
    - rewrite IH. by eexists. }
  destruct H as [names ->]. by eexists.
Qed.

(** ** [emit_fnode] *)

Lemma Bound_length (outs : list PyVal) (targets ims : list string) :
  Bound outs targets ims ->
  length targets = length outs /\
  length ims = length (List.filter (fun t => negb (isinstance_IRObject t)) outs).
Proof.
  induction 1 as [|o outs targets ims _ [IH1 IH2]
                  |t outs im targets ims Ht _ [IH1 IH2]]; simpl.
  - done.
  - by rewrite IH1, IH2.
  - rewrite Ht. simpl. by rewrite IH1, IH2.
Qed.

Lemma im_name_inj (a b : Z) : im_name a = im_name b -> a = b.
Proof.
  unfold im_name. intros H. apply (inj (String.app _)) in H.
  by apply (inj pretty) in H.
Qed.

Lemma bind_outputs_spec (outs : list PyVal) (gen : Z) :
  exists targets k,
    bind_outputs outs gen
    = Ok (targets, map im_name (seqZ (gen + 1) (Z.of_nat k)),
          gen + Z.of_nat k) /\
    Bound outs targets (map im_name (seqZ (gen + 1) (Z.of_nat k))).
Proof.
  revert gen. induction outs as [|t outs IH]; intros gen.
  - exists [], 0%nat. simpl. rewrite Z.add_0_r. split; constructor.
  - assert (Hman : forall o, t = VIRObject o ->
      exists targets k,
        bind_outputs (t :: outs) gen
        = Ok (targets, map im_name (seqZ (gen + 1) (Z.of_nat k)),
              gen + Z.of_nat k) /\
        Bound (t :: outs) targets (map im_name (seqZ (gen + 1) (Z.of_nat k)))).
    { intros o ->. destruct (IH gen) as (targets & k & Hb & HB).
      exists (managed_name o None :: targets), k.
      simpl. rewrite Hb. split; [reflexivity|by constructor]. }
    assert (Hint : isinstance_IRObject t = false ->
      exists targets k,
        bind_outputs (t :: outs) gen
        = Ok (targets, map im_name (seqZ (gen + 1) (Z.of_nat k)),
              gen + Z.of_nat k) /\
        Bound (t :: outs) targets (map im_name (seqZ (gen + 1) (Z.of_nat k)))).
    { intros Ht. destruct (IH (gen + 1)) as (targets & k & Hb & HB).
      exists (im_name (gen + 1) :: targets), (S k).
      assert (Hseq : map im_name (seqZ (gen + 1) (Z.of_nat (S k)))
                     = im_name (gen + 1)
                       :: map im_name (seqZ (gen + 1 + 1) (Z.of_nat k))).
      { rewrite Nat2Z.inj_succ, seqZ_cons by lia. simpl.
        do 3 f_equal; lia. }
      rewrite Hseq. split; [|by constructor].
      replace (gen + Z.of_nat (S k)) with (gen + 1 + Z.of_nat k) by lia.
      destruct t; try discriminate; simpl; by rewrite Hb. }
    destruct t; try (by apply Hint); by eapply Hman.
Qed.

(** Every path recorded below [current_path] extends it. *)
Lemma dict_set_paths (Q : list PyVal -> Prop) (o : IRObject)
    (path : list PyVal) (acc : list (IRObject * list PyVal)) :
  Q path ->
  Forall (fun kv => Q (snd kv)) acc ->
  Forall (fun kv => Q (snd kv)) (dict_set irobject_eqb o path acc).
Proof.
  intros Hp. induction 1 as [|[o0 p0] acc H0 Hacc IH]; simpl.
  - by repeat constructor.
  - destruct (irobject_eqb o0 o); constructor; simpl; auto.
Qed.

Lemma r_paths (Q : list PyVal -> Prop) (t : PyVal) :
  forall (cp : list PyVal) (acc : list (IRObject * list PyVal)),
    (forall rest, Q (cp ++ rest)) ->
    Forall (fun kv => Q (snd kv)) acc ->
    Forall (fun kv => Q (snd kv)) (r t cp acc).
Proof.
  induction t as [nm|o|a b c IHa IHb IHc|items IH|l IH|l IH
                  |z|s|b|t| |b| |t|t i|x s] using PyVal_nested_ind;
    intros cp acc Hcp Hacc; simpl; try exact Hacc.
  - apply dict_set_paths; [|exact Hacc].
    specialize (Hcp []). by rewrite app_nil_r in Hcp.
  - revert acc Hacc. induction IH as [|[k v] items [_ Hv] _ IHitems];
      intros acc Hacc; simpl; [exact Hacc|].
    apply IHitems. apply Hv; [|exact Hacc].
    intros rest. rewrite <- app_assoc. apply Hcp.
  - generalize 0. revert acc Hacc.
    induction IH as [|v l Hv _ IHl]; intros acc Hacc i; simpl; [exact Hacc|].
    apply IHl. apply Hv; [|exact Hacc].
    intros rest. rewrite <- app_assoc. apply Hcp.
  - generalize 0. revert acc Hacc.
    induction IH as [|v l Hv _ IHl]; intros acc Hacc i; simpl; [exact Hacc|].
    apply IHl. apply Hv; [|exact Hacc].
    intros rest. rewrite <- app_assoc. apply Hcp.
Qed.

Lemma r_elts_top_indexed (n : nat) (l : list PyVal) (i : Z)
    (acc : list (IRObject * list PyVal)) :
  0 <= i -> i + Z.of_nat (length l) <= Z.of_nat n ->
  Forall (fun kv => top_indexed n (snd kv)) acc ->
  Forall (fun kv => top_indexed n (snd kv))
         (r_elts (fun v cp acc => r v cp acc) [] l i acc).
Proof.
  revert i acc. induction l as [|v l IH]; intros i acc Hi Hn Hacc; simpl;
    [exact Hacc|].
  simpl in Hn. apply IH; [lia|lia|].
  apply r_paths; [|exact Hacc].
  intros rest. exists i, rest. split; [reflexivity|lia].
Qed.

Lemma irobj_path_top_indexed (node : IRFwOperation) :
  Forall (fun kv => top_indexed (length (fw_outputs node)) (snd kv))
         (irobj_path_of node).
Proof.
  unfold irobj_path_of. simpl.
  apply r_elts_top_indexed; [lia|lia|constructor].
Qed.

Lemma extract_outputs_Ok (outputs : list string)
    (items : list (IRObject * list PyVal)) :
  Forall (fun kv => top_indexed (length outputs) (snd kv)) items ->
  exists extractions, extract_outputs outputs items = Ok extractions.
Proof.
  induction 1 as [|[t path] items (i & rest & Hp & Hi) _ [ex IH]]; simpl;
    [by eexists|].
  simpl in Hp. subst path.
  destruct (length (VInt i :: rest) =? 1)%nat; [by eexists|].
  simpl. destruct (Z.ltb_spec i 0) as [|_]; [lia|].
  destruct (Z.ltb_spec i 0) as [|_]; [lia|].
  destruct (lookup_lt_is_Some_2 outputs (Z.to_nat i)) as [out ->]; [lia|].
  rewrite IH. by eexists.
Qed.

Lemma all_leaves_no_outputs (node : IRFwOperation) :
  fw_outputs node = [] -> all_leaves (irobj_path_of node) = true.
Proof. unfold irobj_path_of. by intros ->. Qed.

(** X24: the nested branch, which binds the slots that are not managed
    values.  When the walk of the output tree records, for some managed
    value, a path below the top level and the right-hand side is built,
    [emit_fnode] binds every managed top-level slot to its own name and
    every other top-level slot to an intermediate name synthesized from a
    fresh unique id, one per such slot, and after the extraction statements
    it emits one [del] statement for every intermediate name.  The
    intermediate names differ from each other and from the name of every
    managed value whose id the counter has passed. *)
Theorem emit_fnode_nested_binding (self : FuncEmission) (flags : CompileFlag)
    (node : IRFwOperation) (runtime_devid plan_ndevs runtime_ndevs : Z)
    (prefix_attr : option string) (gen : Z) (body : string) :
  fnode_body self node runtime_devid plan_ndevs runtime_ndevs prefix_attr
  = Ok body ->
  all_leaves (irobj_path_of node) = false ->
  exists targets extractions k,
    let im_outputs := map im_name (seqZ (gen + 1) (Z.of_nat k)) in
    emit_fnode self flags node runtime_devid plan_ndevs runtime_ndevs
      prefix_attr gen
    = Ok (fnode_header flags node
          ++ [join ", " targets +:+ " = " +:+ body]
          ++ extractions
          ++ map (fun im_output => "del " +:+ im_output) im_outputs,
          gen + Z.of_nat k) /\
    Bound (fw_outputs node) targets im_outputs /\
    k = length (List.filter (fun t => negb (isinstance_IRObject t))
                            (fw_outputs node)) /\
    NoDup im_outputs /\
    (forall o im, tid o <= gen -> In im im_outputs ->
                  im <> managed_name o None) /\
    extract_outputs targets (irobj_path_of node) = Ok extractions.
Proof.
  intros Hbody Hnested.
  destruct (bind_outputs_spec (fw_outputs node) gen) as (targets & k & Hb & HB).
  destruct (Bound_length _ _ _ HB) as [Hlen Hk].
  destruct (extract_outputs_Ok targets (irobj_path_of node)) as [ex Hex].
  { rewrite Hlen. apply irobj_path_top_indexed. }
  exists targets, ex, k. cbv zeta.
  split; [|split; [exact HB|split; [|split; [|split; [|exact Hex]]]]].
  - unfold emit_fnode. rewrite Hbody.
    destruct (length (fw_outputs node) =? 0)%nat eqn:E0.
    { apply Nat.eqb_eq, length_zero_iff_nil, all_leaves_no_outputs in E0.
      congruence. }
    rewrite Hnested, Hb, Hex. by rewrite <- !app_assoc.
  - rewrite <- Hk. by rewrite length_map, length_seqZ, Nat2Z.id.
  - change (NoDup (im_name <$> seqZ (gen + 1) (Z.of_nat k))).
    apply NoDup_fmap_2; [|apply NoDup_seqZ].
    intros a b. apply im_name_inj.
  - intros o im Ho Him. apply in_map_iff in Him as (t & <- & Ht).
    apply list_elem_of_In, elem_of_seqZ in Ht. intros E.
    change (im_name t) with (managed_name (tensor "im_output" t) None) in E.
    apply managed_name_inj in E. simpl in E. lia.
Qed.

Lemma emit_fnode_nested_binding_witness :
  let node :=
    {| fw_comment := None; fw_signature := "torch.split";
       fw_inputs := [VIRObject (tensor "x" 1)]; fw_kwargs := [];
       fw_outputs := [VIRObject (tensor "a" 2); VNone;
                      VList [VIRObject (tensor "b" 3)]] |} in
  all_leaves (irobj_path_of node) = false /\
  exists targets extractions k,
    let im_outputs := map im_name (seqZ (100 + 1) (Z.of_nat k)) in
    emit_fnode call_emitter no_timer node 0 1 1 None 100
    = Ok (fnode_header no_timer node
          ++ [join ", " targets +:+ " = " +:+ "torch.split(x_1)"]
          ++ extractions
          ++ map (fun im_output => "del " +:+ im_output) im_outputs,
          100 + Z.of_nat k) /\
    Bound (fw_outputs node) targets im_outputs /\
    k = length (List.filter (fun t => negb (isinstance_IRObject t))
                            (fw_outputs node)) /\
    NoDup im_outputs /\
    (forall o im, tid o <= 100 -> In im im_outputs ->
                  im <> managed_name o None) /\
    extract_outputs targets (irobj_path_of node) = Ok extractions.
Proof.
  intros node. split; [reflexivity|].
  apply (emit_fnode_nested_binding call_emitter no_timer node 0 1 1 None
           100 "torch.split(x_1)"); reflexivity.
Defined.

(** The statements of that node. *)
Example emit_fnode_nested_binding_run :
  emit_fnode call_emitter no_timer
    {| fw_comment := None; fw_signature := "torch.split";
       fw_inputs := [VIRObject (tensor "x" 1)]; fw_kwargs := [];
       fw_outputs := [VIRObject (tensor "a" 2); VNone;
                      VList [VIRObject (tensor "b" 3)]] |} 0 1 1 None 100
  = Ok (["a_2, im_output_101, im_output_102 = torch.split(x_1)";
         "b_3 = im_output_102[0]";
         "del im_output_101"; "del im_output_102"], 102).
Proof. reflexivity. Qed.

(** C2, the code at a node with the outputs [a] and [None]: the outputs
    have a top-level slot that is not a managed value, and [emit_fnode]
    returns the one statement that assigns to [a_2, None], with the literal
    as an assignment target.  The id counter does not move and no [del]
    statement is emitted: the result is not an assignment to bound names,
    extractions and one [del] for each intermediate name, for any binding
    that gives the literal slot an intermediate name. *)
Lemma emit_fnode_literal_target_counterexample :
  let node :=
    {| fw_comment := None; fw_signature := "torch.foo";
       fw_inputs := [VIRObject (tensor "x" 1)]; fw_kwargs := [];
       fw_outputs := [VIRObject (tensor "a" 2); VNone] |} in
  Exists (fun t => isinstance_IRObject t = false) (fw_outputs node) /\
  emit_fnode call_emitter no_timer node 0 1 1 None 100
  = Ok (["a_2, None = torch.foo(x_1)"], 100) /\
  ~ (exists targets extractions k,
       let im_outputs := map im_name (seqZ (100 + 1) (Z.of_nat k)) in
       emit_fnode call_emitter no_timer node 0 1 1 None 100
       = Ok (fnode_header no_timer node
             ++ [join ", " targets +:+ " = " +:+ "torch.foo(x_1)"]
             ++ extractions
             ++ map (fun im_output => "del " +:+ im_output) im_outputs,
             100 + Z.of_nat k) /\
       Bound (fw_outputs node) targets im_outputs).
Proof.
  intros node. split; [by right; left|]. split; [reflexivity|].
  intros (targets & ex & k & Heq & HB). cbv zeta in Heq, HB.
  assert (Hrun : emit_fnode call_emitter no_timer node 0 1 1 None 100
                 = Ok (["a_2, None = torch.foo(x_1)"], 100)) by reflexivity.
  rewrite Hrun in Heq. injection Heq as _ Hgen.
  assert (k = 0%nat) as -> by lia.
  simpl in HB. inversion HB as [|o outs tg ims HB'|]; subst.
  inversion HB'.
Qed.

(** C6: for outputs that are a flat pair of managed values [emit_fnode]
    adds one statement, the assignment of the rule's expression to both
    names.  For one managed value two levels deep in a list of lists it adds
    three: the assignment to an intermediate name, one extraction statement
    indexing the intermediate, and one [del] of the intermediate.  (The
    third part is the same tree read with the output list as the outer
    list.) *)
Theorem emit_fnode_flat_and_nested (self : FuncEmission) (flags : CompileFlag)
    (node : IRFwOperation) (runtime_devid plan_ndevs runtime_ndevs : Z)
    (prefix_attr : option string) (gen : Z) (body : string) :
  fnode_body self node runtime_devid plan_ndevs runtime_ndevs prefix_attr
  = Ok body ->
  (forall a b,
      fw_outputs node = [VIRObject a; VIRObject b] ->
      emit_fnode self flags node runtime_devid plan_ndevs runtime_ndevs
        prefix_attr gen
      = Ok (fnode_header flags node
            ++ [managed_name a None +:+ ", " +:+ managed_name b None
                +:+ " = " +:+ body], gen)) /\
  (forall x,
      fw_outputs node = [VList [VList [VIRObject x]]] ->
      emit_fnode self flags node runtime_devid plan_ndevs runtime_ndevs
        prefix_attr gen
      = Ok (fnode_header flags node
            ++ [im_name (gen + 1) +:+ " = " +:+ body;
                managed_name x None +:+ " = " +:+ im_name (gen + 1) +:+ "[0][0]";
                "del " +:+ im_name (gen + 1)], gen + 1)) /\
  (forall x,
      fw_outputs node = [VList [VIRObject x]] ->
      emit_fnode self flags node runtime_devid plan_ndevs runtime_ndevs
        prefix_attr gen
      = Ok (fnode_header flags node
            ++ [im_name (gen + 1) +:+ " = " +:+ body;
                managed_name x None +:+ " = " +:+ im_name (gen + 1) +:+ "[0]";
                "del " +:+ im_name (gen + 1)], gen + 1)).
Proof.
  intros Hbody. unfold emit_fnode, irobj_path_of. rewrite Hbody.
  split; [|split].
  - intros a b ->. simpl.
    destruct (irobject_eqb a b); simpl; rewrite ?app_assoc_str; reflexivity.
  - intros x ->. simpl. unfold join, im_name. simpl.
    rewrite <- !app_assoc, ?app_assoc_str. reflexivity.
  - intros x ->. simpl. unfold join, im_name. simpl.
    rewrite <- !app_assoc, ?app_assoc_str. reflexivity.
Qed.

Lemma emit_fnode_flat_and_nested_witness :
  let flat :=
    {| fw_comment := None; fw_signature := "torch.chunk";
       fw_inputs := [VIRObject (tensor "x" 1)]; fw_kwargs := [];
       fw_outputs := [VIRObject (tensor "a" 2); VIRObject (tensor "b" 3)] |} in
  let nested :=
    {| fw_comment := None; fw_signature := "torch.chunk";
       fw_inputs := [VIRObject (tensor "x" 1)]; fw_kwargs := [];
       fw_outputs := [VList [VList [VIRObject (tensor "a" 2)]]] |} in
  emit_fnode call_emitter no_timer flat 0 1 1 None 100
  = Ok (["a_2, b_3 = torch.chunk(x_1)"], 100) /\
  emit_fnode call_emitter no_timer nested 0 1 1 None 100
  = Ok (["im_output_101 = torch.chunk(x_1)";
         "a_2 = im_output_101[0][0]";
         "del im_output_101"], 101).
Proof.
  intros flat nested. split.
  - apply (proj1 (emit_fnode_flat_and_nested call_emitter no_timer flat
                    0 1 1 None 100 "torch.chunk(x_1)" eq_refl)
             (tensor "a" 2) (tensor "b" 3) eq_refl).
  - apply (proj1 (proj2 (emit_fnode_flat_and_nested call_emitter no_timer
                           nested 0 1 1 None 100 "torch.chunk(x_1)" eq_refl))
             (tensor "a" 2) eq_refl).
Defined.

(** ** [emit_adapter] *)

Lemma index_Ok (l : list Prim) (p : Prim) :
  In p l -> exists i, index l p = Ok i.
Proof.
  induction l as [|q l IH]; [done|]. simpl.
  destruct (prim_eqb q p) eqn:E; [by eexists|].
  intros [->|Hin].
  - unfold prim_eqb in E. by rewrite Nat.eqb_refl in E.
  - destruct (IH Hin) as [i ->]. by eexists.
Qed.

(** The legality analysis raises nothing. *)
Lemma check_async_Ok (prims : list Prim) (async_op : bool) :
  exists b, check_async prims async_op = Ok b.
Proof.
  unfold check_async. destruct async_op; [|by eexists].
  destruct (1 <? length (List.filter _ prims))%nat eqn:Hlen; [|by eexists].
  destruct (mapM_Ok (index prims)
              (List.filter (fun p => negb (isinstance_CommPrim p)) prims))
    as [idxs Hidxs].
  { apply List.Forall_forall. intros p Hp. apply index_Ok.
    by apply List.filter_In in Hp as [Hp _]. }
  rewrite Hidxs. apply mapM_length in Hidxs.
  apply Nat.ltb_lt in Hlen.
  destruct idxs as [|i idxs]; [simpl in Hidxs; lia|].
  simpl. by eexists.
Qed.

Lemma itensors_of_raises (p : option string) (prim : Prim) (e : Exn) :
  itensors_of p prim = Raise e -> e = ValueError.
Proof.
  unfold itensors_of. intros Ei.
  destruct (prim_inputs prim) as [|t [|t' l]].
  - discriminate.
  - by eapply tensor_name_raises.
  - unfold tuple_name in Ei.
    destruct (names_of (t :: t' :: l) false p) eqn:En; [discriminate|].
    injection Ei as <-. by eapply names_of_raises.
Qed.

Lemma emit_prim_raises (flags : CompileFlag) (p : option string)
    (async_op : bool) (prim : Prim) (e : Exn) :
  emit_prim flags p async_op prim = Raise e -> e = ValueError.
Proof.
  unfold emit_prim.
  destruct (itensors_of p prim) as [itensors|e'] eqn:Ei;
    [|intros [= <-]; by eapply itensors_of_raises].
  destruct (kwargs_name_Ok (emitted_kwargs async_op prim)) as [kw ->].
  destruct (return_name (prim_outputs prim) false None) as [outs|e'] eqn:Eo;
    [discriminate|].
  intros [= <-]. unfold return_name in Eo.
  destruct (names_of (prim_outputs prim) false None) eqn:En; [discriminate|].
  injection Eo as <-. by eapply names_of_raises.
Qed.

Lemma emit_prim_Ok (flags : CompileFlag) (p : option string)
    (async_op : bool) (prim : Prim) :
  renderable prim -> exists codes, emit_prim flags p async_op prim = Ok codes.
Proof.
  intros [Hin Hout]. unfold emit_prim.
  assert (Hi : exists s, itensors_of p prim = Ok s).
  { unfold itensors_of.
    destruct (prim_inputs prim) as [|t [|t' l]] eqn:El.
    - by eexists.
    - apply tensor_name_Ok. by inversion Hin.
    - unfold tuple_name.
      destruct (names_of_Ok (t :: t' :: l) false p Hin) as [names ->].
      by eexists. }
  destruct Hi as [s ->].
  destruct (kwargs_name_Ok (emitted_kwargs async_op prim)) as [kw ->].
  unfold return_name.
  destruct (names_of_Ok (prim_outputs prim) false None Hout) as [names ->].
  by eexists.
Qed.

(** C8: [emit_adapter] fails its placement assertion exactly when the
    device set of the node does not hold exactly one device, and then it
    returns no statements.  With exactly one device the assertion passes
    whatever the primitives are: nothing else in [emit_adapter] raises an
    assertion error, and statements are returned as soon as the inputs and
    outputs of the primitives are supported values. *)
Theorem emit_adapter_placement (flags : CompileFlag) (node : IRAdapter)
    (prefix_attr : option string) (async_op : bool) :
  (emit_adapter flags node prefix_attr async_op = Raise AssertionError <->
   length (device node) <> 1%nat) /\
  (length (device node) <> 1%nat ->
   forall codes, emit_adapter flags node prefix_attr async_op <> Ok codes) /\
  (length (device node) = 1%nat ->
   Forall renderable (selected_prims node) ->
   exists codes, emit_adapter flags node prefix_attr async_op = Ok codes).
Proof.
  unfold emit_adapter.
  destruct (Nat.eqb_spec (length (device node)) 1) as [E|E]; simpl.
  - split; [|split]; [|done|].
    + split; [|done]. intros He. exfalso.
      destruct (check_async_Ok (selected_prims node) async_op) as [b Hb].
      rewrite Hb in He.
      destruct (mapM (emit_prim flags prefix_attr b) (selected_prims node))
        as [codes|e] eqn:Em; [discriminate|].
      injection He as ->. apply mapM_Raise in Em.
      apply List.Exists_exists in Em as (p & _ & Hp).
      by apply emit_prim_raises in Hp.
    + intros _ Hall.
      destruct (check_async_Ok (selected_prims node) async_op) as [b ->].
      destruct (mapM_Ok (emit_prim flags prefix_attr b) (selected_prims node))
        as [codes ->]; [|by eexists].
      eapply List.Forall_impl; [|exact Hall].
      intros p Hp. by apply emit_prim_Ok.
  - split; [|split]; [done|done|done].
Qed.

Lemma emit_adapter_placement_witness :
  let t := VIRObject (MkIRObject "t" 1 false ClsIRSubTensor None EmptyString) in
  let move := Build_Prim 1 false [t] [t] [] "nnscaler.runtime.adapter.move" [0] in
  let pinned := Build_IRAdapter [0] false false [move] 9 [] [] [] "adapter" in
  let spread := Build_IRAdapter [0; 1] false false [move] 9 [] [] [] "adapter" in
  let flags := Build_CompileFlag false in
  emit_adapter flags spread None false = Raise AssertionError /\
  exists codes, emit_adapter flags pinned None false = Ok codes.
Proof.
  intros t move pinned spread flags. split.
  - apply (proj1 (emit_adapter_placement flags spread None false)).
    simpl. lia.
  - apply (proj2 (proj2 (emit_adapter_placement flags pinned None false)));
      [reflexivity|].
    repeat constructor.
Defined.

(** ** The asynchronous-overlap analysis of [emit_adapter] *)

(** *** What the analysis computes: [positions] is what [prims.index]
    returns for the non-collective primitives when the objects of [prims]
    are pairwise distinct. *)

Lemma index_app_fresh (pre l : list Prim) (p : Prim) :
  Forall (fun q => prim_eqb q p = false) pre ->
  index (pre ++ l) p
  = match index l p with
    | Ok i => Ok (length pre + i)%nat
    | Raise e => Raise e
    end.
Proof.
  induction 1 as [|q pre Hq _ IH]; simpl.
  - by destruct (index l p).
  - rewrite Hq, IH. by destruct (index l p).
Qed.

Lemma mapM_index_positions (pre l : list Prim) :
  NoDup (map prim_oid (pre ++ l)) ->
  mapM (index (pre ++ l))
       (List.filter (fun p => negb (isinstance_CommPrim p)) l)
  = Ok (map (fun i => (length pre + i)%nat) (positions l)).
Proof.
  revert pre. induction l as [|p l IH]; intros pre Hnd; [reflexivity|].
  assert (Hrest : mapM (index (pre ++ p :: l))
            (List.filter (fun p => negb (isinstance_CommPrim p)) l)
          = Ok (map (fun i => (length pre + i)%nat) (map S (positions l)))).
  { replace (pre ++ p :: l) with ((pre ++ [p]) ++ l) in *
      by by rewrite <- app_assoc.
    rewrite (IH _ Hnd), length_app, map_map. simpl.
    f_equal. apply map_ext. intros i. lia. }
  simpl. destruct (isinstance_CommPrim p); simpl; [exact Hrest|].
  rewrite Hrest, index_app_fresh.
  - simpl. unfold prim_eqb. rewrite Nat.eqb_refl. by rewrite Nat.add_0_r.
  - rewrite map_app in Hnd. simpl in Hnd.
    apply NoDup_app in Hnd as (_ & Hdisj & _).
    apply List.Forall_forall. intros q Hq. unfold prim_eqb.
    apply Nat.eqb_neq. intros E.
    apply (Hdisj (prim_oid q)).
    + apply list_elem_of_In. by apply in_map.
    + rewrite E. by left.
Qed.

Lemma fold_left_max (l : list nat) (x : nat) :
  fold_left Nat.max l x = Nat.max x (list_max l).
Proof.
  revert x. induction l as [|y l IH]; intros x; simpl; [lia|].
  rewrite IH. lia.
Qed.

Lemma list_max_map_S (l : list nat) :
  l <> [] -> list_max (map S l) = S (list_max l).
Proof.
  induction l as [|x [|y l] IH]; [done|simpl; lia|].
  intros _. change (Nat.max (S x) (list_max (map S (y :: l)))
                    = S (Nat.max x (list_max (y :: l)))).
  rewrite IH by done. lia.
Qed.

(** The positions are [0 .. k-1] exactly when no collective primitive is
    followed by a non-collective one. *)
Lemma positions_ordering (l : list Prim) :
  (positions l = [] /\ spec_ordering_ok l = true) \/
  (positions l <> [] /\ forallb isinstance_CommPrim l = false /\
   (length (positions l) <= S (list_max (positions l)))%nat /\
   (spec_ordering_ok l = true <->
    S (list_max (positions l)) = length (positions l))).
Proof.
  induction l as [|p l IH]; [by left|].
  simpl. destruct (isinstance_CommPrim p) eqn:Ep; simpl.
  - destruct IH as [[Hps Hok]|(Hps & Hall & Hlen & Hiff)].
    + left. rewrite Hps. split; [done|].
      clear Hok. induction l as [|q l IHl]; [done|].
      simpl in Hps |- *. destruct (isinstance_CommPrim q); [|done].
      apply IHl. by destruct (positions l).
    + right. rewrite length_map, list_max_map_S by done.
      split; [by destruct (positions l)|]. split; [done|].
      split; [lia|]. rewrite Hall. split; [done|lia].
  - right. split; [done|]. split; [done|].
    destruct IH as [[Hps Hok]|(Hps & Hall & Hlen & Hiff)].
    + rewrite Hps. simpl. split; [lia|]. by rewrite Hok.
    + rewrite length_map, list_max_map_S by done.
      split; [lia|]. rewrite Hiff. lia.
Qed.

Lemma positions_length (l : list Prim) :
  length (positions l)
  = length (List.filter (fun p => negb (isinstance_CommPrim p)) l).
Proof.
  induction l as [|p l IH]; [done|].
  simpl. destruct (isinstance_CommPrim p); simpl; rewrite length_map; lia.
Qed.

(** The device test of the code is the device condition of the
    specification. *)
Lemma devices_check_spec (prims : list Prim) :
  let colls := List.filter isinstance_CommPrim prims in
  let devices := map device_set colls in
  (1 <? length colls)%nat &&
  negb (match devices with
        | [] => true
        | d0 :: rest => forallb (fun devs => bool_decide (devs = d0)) rest
        end)
  = negb (spec_devices_ok prims).
Proof.
  unfold spec_devices_ok.
  destruct (List.filter isinstance_CommPrim prims) as [|c0 [|c1 rest]];
    cbv zeta.
  - reflexivity.
  - simpl. by rewrite bool_decide_true.
  - change (1 <? length (c0 :: c1 :: rest))%nat with true.
    rewrite andb_true_l. f_equal. apply eq_true_iff_eq.
    set (colls := c0 :: c1 :: rest).
    change (map device_set colls) with (device_set c0 :: map device_set (c1 :: rest)).
    cbv iota. rewrite !forallb_forall. split.
    + intros Hall p Hp. apply forallb_forall. intros q Hq.
      assert (Hd0 : forall x, In x colls -> device_set x = device_set c0).
      { intros x [<-|Hx]; [done|].
        eapply bool_decide_eq_true_1, Hall. by apply in_map. }
      apply bool_decide_eq_true_2. by rewrite (Hd0 p Hp), (Hd0 q Hq).
    + intros Hall d Hd. apply in_map_iff in Hd as (q & <- & Hq).
      specialize (Hall q (or_intror Hq)).
      rewrite forallb_forall in Hall. apply (Hall c0). by left.
Qed.

(** With pairwise distinct primitive objects, an asynchronous request
    survives exactly when the device condition holds and either the
    ordering condition holds or there are fewer than two non-collective
    primitives (the ordering test is skipped then). *)
Lemma check_async_exact (prims : list Prim) :
  NoDup (map prim_oid prims) ->
  check_async prims true
  = Ok ((negb (1 <? length (List.filter
                   (fun p => negb (isinstance_CommPrim p)) prims))%nat
         || spec_ordering_ok prims)
        && spec_devices_ok prims).
Proof.
  intros Hnd. unfold check_async.
  rewrite (devices_check_spec prims).
  destruct (1 <? length (List.filter _ prims))%nat eqn:Hlen; simpl;
    [|by destruct (spec_devices_ok prims)].
  pose proof (mapM_index_positions [] prims Hnd) as Hm.
  change ([] ++ prims) with prims in Hm. rewrite Hm. clear Hm.
  change (fun i => (length (@nil Prim) + i)%nat) with (fun i : nat => i).
  rewrite map_id. rewrite <- positions_length in Hlen.
  apply Nat.ltb_lt in Hlen.
  destruct (positions_ordering prims) as [[Hps _]|(_ & _ & Hle & Hiff)];
    [rewrite Hps in Hlen; simpl in Hlen; lia|].
  destruct (positions prims) as [|x ps] eqn:Eps; [simpl in Hlen; lia|].
  simpl py_max. cbv iota. rewrite fold_left_max.
  change (Nat.max x (list_max ps)) with (list_max (x :: ps)).
  rewrite <- positions_length, Eps.
  destruct (Nat.eqb_spec (list_max (x :: ps) + 1) (length (x :: ps)))
    as [E|E]; simpl.
  - assert (Hok : spec_ordering_ok prims = true) by (apply Hiff; lia).
    rewrite Hok. by destruct (spec_devices_ok prims).
  - assert (Hok : spec_ordering_ok prims = false).
    { apply not_true_is_false. intros H. apply Hiff in H. lia. }
    rewrite Hok. by destruct (spec_devices_ok prims).
Qed.

(** An asynchronous request on primitives that meet both conditions of the
    specification is kept. *)
Lemma check_async_legal (prims : list Prim) :
  NoDup (map prim_oid prims) ->
  spec_async_legal prims = true ->
  check_async prims true = Ok true.
Proof.
  intros Hnd Hlegal. rewrite check_async_exact by done.
  apply andb_true_iff in Hlegal as [-> ->]. by rewrite orb_true_r.
Qed.

(** Collective primitives on different device sets force synchronous
    emission: the request is cleared and no primitive gets the flag. *)
Lemma check_async_device_mismatch (prims : list Prim) :
  spec_devices_ok prims = false ->
  check_async prims true = Ok false /\
  forall prim, emitted_kwargs false prim = prim_kwargs prim.
Proof.
  intros Hdev. split; [|reflexivity].
  unfold check_async. rewrite (devices_check_spec prims), Hdev. simpl.
  match goal with |- match ?x with _ => _ end = _ =>
    destruct x as [b|e] eqn:E end; [reflexivity|].
  exfalso. destruct (1 <? length (List.filter _ prims))%nat eqn:Hlen;
    [|discriminate].
  destruct (check_async_Ok prims true) as [b Hb]. unfold check_async in Hb.
  rewrite Hlen in Hb. rewrite E in Hb. discriminate.
Qed.

(** The legal sequence [[non-collective, collective@{0,1},
    collective@{0,1}]]: both collectives are emitted with the flag. *)
Example emit_adapter_async_legal_run :
  let ps := [move 1 1 2; all_reduce 2 [0; 1] 2 3; all_reduce 3 [0; 1] 3 4] in
  spec_async_legal ps = true /\
  emit_adapter no_timer (adapter_of ps) None true
  = Ok ["t_2 = nnscaler.runtime.adapter.move(t_1, )";
        "t_3 = nnscaler.runtime.adapter.all_reduce(t_2, ranks=[0, 1], async_op=True)";
        "t_4 = nnscaler.runtime.adapter.all_reduce(t_3, ranks=[0, 1], async_op=True)"].
Proof. vm_compute. by split. Qed.

(** The device-group mismatch [[collective@{0,1}, collective@{2,3}]]:
    no flag. *)
Example emit_adapter_device_mismatch_run :
  let ps := [all_reduce 1 [0; 1] 1 2; all_reduce 2 [2; 3] 2 3] in
  emit_adapter no_timer (adapter_of ps) None true
  = Ok ["t_2 = nnscaler.runtime.adapter.all_reduce(t_1, ranks=[0, 1])";
        "t_3 = nnscaler.runtime.adapter.all_reduce(t_2, ranks=[2, 3])"].
Proof. vm_compute. reflexivity. Qed.


(** C1, the code at [[collective@{0}, non-collective]]: the ordering
    condition fails, yet the request stays asynchronous and the collective
    is emitted with [async_op=True].  The ordering test runs only under
    [len(non_colls) > 1], so one non-collective primitive is never tested. *)
Theorem emit_adapter_async_one_trailing_non_collective :
  let ps := [all_reduce 1 [0] 1 2; move 2 2 3] in
  spec_ordering_ok ps = false /\
  check_async ps true = Ok true /\
  has_async_flag (emitted_kwargs true (all_reduce 1 [0] 1 2)) = true /\
  emit_adapter no_timer (adapter_of ps) None true
  = Ok ["t_2 = nnscaler.runtime.adapter.all_reduce(t_1, ranks=[0], async_op=True)";
        "t_3 = nnscaler.runtime.adapter.move(t_2, )"].
Proof. vm_compute. repeat split. Qed.

(** C4, the code at [[collective@{0,1}, collective@{0,1}, non-collective]]:
    the legality conditions do not hold (ordering fails), yet both
    collectives are emitted with [async_op=True]. *)
Theorem emit_adapter_async_flag_when_not_legal :
  let ps := [all_reduce 1 [0; 1] 1 2; all_reduce 2 [0; 1] 2 3; move 3 3 4] in
  spec_async_legal ps = false /\
  check_async ps true = Ok true /\
  emit_adapter no_timer (adapter_of ps) None true
  = Ok ["t_2 = nnscaler.runtime.adapter.all_reduce(t_1, ranks=[0, 1], async_op=True)";
        "t_3 = nnscaler.runtime.adapter.all_reduce(t_2, ranks=[0, 1], async_op=True)";
        "t_4 = nnscaler.runtime.adapter.move(t_3, )"].
Proof. vm_compute. repeat split. Qed.

(** ** [get_backward_callsite_io_tensors] *)

Lemma omap_values_without (g : IRObject) (l : list PyVal) :
  omap as_IRSubTensor (values_without g l)
  = tensors_without g (omap as_IRSubTensor l).
Proof.
  induction l as [|t l IH]; [reflexivity|].
  simpl. destruct (as_IRSubTensor t) as [o|] eqn:Et; simpl.
  - destruct (irobject_eqb o g); simpl; rewrite ?Et;
      [exact IH|f_equal; exact IH].
  - rewrite Et. exact IH.
Qed.

Lemma lookup_grads_without (m : gmap Z IRObject) (g : IRObject)
    (grads : list IRObject) :
  m !! tid g = None ->
  lookup_grads m (tensors_without g grads) = lookup_grads m grads.
Proof.
  intros Hg. induction grads as [|x grads IH]; [reflexivity|].
  simpl. unfold irobject_eqb. destruct (Z.eqb_spec (tid x) (tid g)) as [E|E]; simpl.
  - rewrite E, Hg. exact IH.
  - by rewrite IH.
Qed.

Lemma grad2tensor_unmatched (g : IRObject) (l : list PyVal)
    (m : gmap Z IRObject) :
  (forall t g', In (VIRObject t) l -> isinstance_IRSubTensor t = true ->
                grad t = Some g' -> tid g' <> tid g) ->
  m !! tid g = None ->
  fold_left grad2tensor_step l m !! tid g = None.
Proof.
  revert m. induction l as [|t l IH]; intros m Hl Hm; [exact Hm|].
  simpl. apply IH.
  - intros t' g' Hin. apply Hl. by right.
  - unfold grad2tensor_step.
    destruct (as_IRSubTensor t) as [o|] eqn:Et; [|exact Hm].
    destruct (grad o) as [g'|] eqn:Eg; [|exact Hm].
    rewrite lookup_insert_ne; [exact Hm|].
    destruct t as [|o'| | | | | | | | | | | | | |]; try discriminate.
    simpl in Et. destruct (isinstance_IRSubTensor o') eqn:Ec; [|discriminate].
    injection Et as ->. apply (Hl o g'); [by left|done..].
Qed.

Lemma In_omap_IRSubTensor (g : IRObject) (l : list PyVal) :
  In (VIRObject g) l -> isinstance_IRSubTensor g = true ->
  In g (omap as_IRSubTensor l).
Proof.
  intros Hin Hg. induction l as [|t l IH]; [done|].
  simpl. destruct Hin as [->|Hin].
  - simpl. rewrite Hg. by left.
  - destruct (as_IRSubTensor t); [right|]; by apply IH.
Qed.

(** C3: the round trip.  The forward node has inputs [[A]] and outputs
    [[B]], with [A.grad = gA] and [B.grad = gB] two different gradient
    tensors; the backward node mirrors it with inputs [[gB]] and outputs
    [[gA]].  The result is [([A], [B], [gB], [gA])]: input_tensors,
    output_tensors, output_grads, input_grads, in that order. *)
Theorem backward_callsite_round_trip (A B gA gB : IRObject)
    (fwop bwop : IRCell) :
  isinstance_IRSubTensor A = true ->
  isinstance_IRSubTensor B = true ->
  isinstance_IRSubTensor gA = true ->
  isinstance_IRSubTensor gB = true ->
  grad A = Some gA ->
  grad B = Some gB ->
  tid gA <> tid gB ->
  cell_inputs fwop = [VIRObject A] ->
  cell_outputs fwop = [VIRObject B] ->
  isfw bwop = false ->
  mirror bwop = Some fwop ->
  cell_inputs bwop = [VIRObject gB] ->
  cell_outputs bwop = [VIRObject gA] ->
  get_backward_callsite_io_tensors bwop = Ok ([A], [B], [gB], [gA]).
Proof.
  intros HA HB HgA HgB EA EB Hne Hfi Hfo Hfw Hm Hbi Hbo.
  unfold get_backward_callsite_io_tensors, grad2tensor_of.
  rewrite Hfw, Hm, Hfi, Hfo, Hbi, Hbo. simpl.
  unfold grad2tensor_step. simpl. rewrite HA, HB, HgA, HgB, EA, EB. simpl.
  rewrite lookup_insert_eq.
  rewrite lookup_insert_ne by done. rewrite lookup_insert_eq. reflexivity.
Qed.

Lemma backward_callsite_round_trip_witness :
  let gA := MkIRObject "gx" 11 false ClsIRSubTensor None EmptyString in
  let gB := MkIRObject "gy" 12 false ClsIRSubTensor None EmptyString in
  let A := MkIRObject "x" 1 false ClsIRSubTensor (Some gA) EmptyString in
  let B := MkIRObject "y" 2 false ClsIRSubTensor (Some gB) EmptyString in
  let fwop := MkIRCell true None [VIRObject A] [VIRObject B] in
  let bwop := MkIRCell false (Some fwop) [VIRObject gB] [VIRObject gA] in
  get_backward_callsite_io_tensors bwop = Ok ([A], [B], [gB], [gA]).
Proof.
  intros gA gB A B fwop bwop.
  apply (backward_callsite_round_trip A B gA gB fwop bwop);
    try reflexivity.
  vm_compute. discriminate.
Defined.

(** C7: a tensor-like input [g] of a backward node that is the gradient of
    no tensor-like input or output of the mirrored forward node raises
    nothing: the function returns, [g] is in output_grads, and
    output_tensors has no entry for it (the lookup of [g] finds nothing, and
    the other three lists and output_tensors are what they are for the node
    without [g] among its inputs).  The same holds for a tensor-like output
    with input_grads and input_tensors. *)
Theorem unmatched_gradient_dropped (bwop fwop : IRCell) (g : IRObject) :
  isfw bwop = false ->
  mirror bwop = Some fwop ->
  isinstance_IRSubTensor g = true ->
  (forall t g', In (VIRObject t) (cell_inputs fwop ++ cell_outputs fwop) ->
                isinstance_IRSubTensor t = true ->
                grad t = Some g' -> tid g' <> tid g) ->
  exists input_tensors output_tensors output_grads input_grads,
    get_backward_callsite_io_tensors bwop
    = Ok (input_tensors, output_tensors, output_grads, input_grads) /\
    grad2tensor_of fwop !! tid g = None /\
    output_tensors = lookup_grads (grad2tensor_of fwop) output_grads /\
    input_tensors = lookup_grads (grad2tensor_of fwop) input_grads /\
    (In (VIRObject g) (cell_inputs bwop) ->
       In g output_grads /\
       get_backward_callsite_io_tensors
         (with_inputs bwop (values_without g (cell_inputs bwop)))
       = Ok (input_tensors, output_tensors,
             tensors_without g output_grads, input_grads)) /\
    (In (VIRObject g) (cell_outputs bwop) ->
       In g input_grads /\
       get_backward_callsite_io_tensors
         (with_outputs bwop (values_without g (cell_outputs bwop)))
       = Ok (input_tensors, output_tensors,
             output_grads, tensors_without g input_grads)).
Proof.
  intros Hfw Hm Hg Hun.
  assert (Hnone : grad2tensor_of fwop !! tid g = None).
  { apply grad2tensor_unmatched; [exact Hun|apply lookup_empty]. }
  unfold get_backward_callsite_io_tensors. rewrite Hfw, Hm.
  eexists _, _, _, _. split; [reflexivity|].
  split; [exact Hnone|]. split; [reflexivity|]. split; [reflexivity|].
  split; intros Hin.
  - split; [by apply In_omap_IRSubTensor|].
    simpl. rewrite Hfw, Hm.
    rewrite omap_values_without. by rewrite lookup_grads_without.
  - split; [by apply In_omap_IRSubTensor|].
    simpl. rewrite Hfw, Hm.
    rewrite omap_values_without. by rewrite lookup_grads_without.
Qed.

Lemma unmatched_gradient_dropped_witness :
  let gA := MkIRObject "gx" 11 false ClsIRSubTensor None EmptyString in
  let gB := MkIRObject "gy" 12 false ClsIRSubTensor None EmptyString in
  let g := MkIRObject "gz" 13 false ClsIRSubTensor None EmptyString in
  let A := MkIRObject "x" 1 false ClsIRSubTensor (Some gA) EmptyString in
  let B := MkIRObject "y" 2 false ClsIRSubTensor (Some gB) EmptyString in
  let fwop := MkIRCell true None [VIRObject A] [VIRObject B] in
  let bwop :=
    MkIRCell false (Some fwop) [VIRObject gB; VIRObject g] [VIRObject gA] in
  get_backward_callsite_io_tensors bwop = Ok ([A], [B], [gB; g], [gA]) /\
  grad2tensor_of fwop !! tid g = None.
Proof.
  intros gA gB g A B fwop bwop.
  destruct (unmatched_gradient_dropped bwop fwop g)
    as (it & ot & og & ig & Hres & Hnone & _); try reflexivity.
  - intros t g' [Ht|[Ht|[]]] _; injection Ht as <-; simpl;
      intros Hg'; injection Hg' as <-; vm_compute; discriminate.
  - split; [reflexivity|exact Hnone].
Defined.

(** When the two forward tensors refer to one and the same gradient tensor,
    the later one takes its entry in [grad2tensor]; the round trip needs
    two different gradients. *)
Example backward_callsite_shared_gradient_run :
  let g := MkIRObject "g" 11 false ClsIRSubTensor None EmptyString in
  let A := MkIRObject "x" 1 false ClsIRSubTensor (Some g) EmptyString in
  let B := MkIRObject "y" 2 false ClsIRSubTensor (Some g) EmptyString in
  let fwop := MkIRCell true None [VIRObject A] [VIRObject B] in
  let bwop := MkIRCell false (Some fwop) [VIRObject g] [VIRObject g] in
  get_backward_callsite_io_tensors bwop = Ok ([B], [B], [g], [g]).
Proof. reflexivity. Qed.

(** * Further properties of the emitters *)

(** ** More on the naming resolver *)

Lemma mapM_ext_Forall {A B} (f g : A -> Res B) (l : list A) :
  Forall (fun x => f x = g x) l -> mapM f l = mapM g l.
Proof.
  induction 1 as [|x l Hx _ IH]; [reflexivity|]. simpl. by rewrite Hx, IH.
Qed.

Lemma dict_comp_ext_Forall (f g : PyVal -> Res PyVal)
    (l acc : list (PyVal * PyVal)) :
  Forall (fun kv => f (fst kv) = g (fst kv) /\ f (snd kv) = g (snd kv)) l ->
  dict_comp f l acc = dict_comp g l acc.
Proof.
  intros Hall. revert acc.
  induction Hall as [|[k v] l [Hk Hv] _ IH]; intros acc; [reflexivity|].
  simpl in *. rewrite Hk, Hv. destruct (g k); [|reflexivity].
  destruct (g v); [|reflexivity]. apply IH.
Qed.

Lemma mapM_Forall2 {A B} (f : A -> Res B) (l : list A) (ys : list B) :
  mapM f l = Ok ys -> Forall2 (fun x y => f x = Ok y) l ys.
Proof.
  revert ys. induction l as [|x l IH]; intros ys; simpl.
  - intros [= <-]. constructor.
  - destruct (f x) as [y|] eqn:Ex; [|discriminate].
    destruct (mapM f l) as [zs|]; [|discriminate].
    intros [= <-]. constructor; [exact Ex|by apply IH].
Qed.

Lemma dict_comp_entries (f : PyVal -> Res PyVal) (Q : PyVal -> Prop)
    (l acc d : list (PyVal * PyVal)) :
  Forall (fun kv => (forall x, f (fst kv) = Ok x -> Q x) /\
                    (forall x, f (snd kv) = Ok x -> Q x)) l ->
  Forall (fun kv => Q (fst kv) /\ Q (snd kv)) acc ->
  dict_comp f l acc = Ok d ->
  Forall (fun kv => Q (fst kv) /\ Q (snd kv)) d.
Proof.
  intros Hall. revert acc.
  induction Hall as [|[k v] l [Hk Hv] _ IH]; intros acc Hacc; simpl.
  - by intros [= <-].
  - simpl in Hk, Hv.
    destruct (f k) as [k'|] eqn:Ek; [|discriminate].
    destruct (f v) as [v'|] eqn:Ev; [|discriminate].
    apply IH. apply (dict_set_entries py_eqb k' v' acc Q Q); auto.
Qed.

Lemma dict_comp_shape (f : PyVal -> Res PyVal) (l acc d : list (PyVal * PyVal)) :
  distinct_keys py_eqb acc ->
  dict_comp f l acc = Ok d ->
  distinct_keys py_eqb d /\ (length d <= length acc + length l)%nat.
Proof.
  revert acc. induction l as [|[k v] l IH]; intros acc Hacc; simpl.
  - intros [= <-]. split; [done|lia].
  - destruct (f k) as [k'|]; [|discriminate].
    destruct (f v) as [v'|]; [|discriminate].
    intros Hd. apply IH in Hd as [Hd Hlen]; [|by apply dict_set_distinct].
    split; [done|].
    assert (length (dict_set py_eqb k' v' acc) <= S (length acc))%nat.
    { clear. induction acc as [|[k0 v0] acc IHacc]; simpl; [lia|].
      destruct (py_eqb k0 k'); simpl; lia. }
    lia.
Qed.

(** X1: [_safe_repr_value] returns exactly on the supported values, and on
    any other value it raises [ValueError] and nothing else. *)
Theorem _safe_repr_value_returns_or_ValueError (v : PyVal)
    (prefix_attr : option string) :
  match _safe_repr_value v prefix_attr with
  | Ok _ => supported v = true
  | Raise e => e = ValueError /\ supported v = false
  end.
Proof.
  pose proof (_safe_repr_value_supported v prefix_attr) as Hs.
  destruct (_safe_repr_value v prefix_attr) as [x|e] eqn:E; simpl in Hs.
  - done.
  - split; [by eapply _safe_repr_value_raises|done].
Qed.

Lemma _safe_repr_value_resolved_aux (v : PyVal) (p : option string) :
  forall x, _safe_repr_value v p = Ok x -> resolved x = true.
Proof.
  induction v as [nm|o|a b c IHa IHb IHc|items IH|l IH|l IH
                  |z|s|b|t| |b| |t|t i|r s] using PyVal_nested_ind;
    intros x Hx; simpl in Hx; try (by injection Hx as <-); try discriminate.
  - destruct (_safe_repr_value a p) as [a'|] eqn:Ea; [|discriminate].
    destruct (_safe_repr_value b p) as [b'|] eqn:Eb; [|discriminate].
    destruct (_safe_repr_value c p) as [c'|] eqn:Ec; [|discriminate].
    injection Hx as <-. simpl.
    by rewrite (IHa _ eq_refl), (IHb _ eq_refl), (IHc _ eq_refl).
  - destruct (dict_comp _ items []) as [d|] eqn:Ed; [|discriminate].
    injection Hx as <-. simpl. apply forallb_forall.
    eapply (dict_comp_entries _ (fun x => resolved x = true)) in Ed;
      [|exact IH|constructor].
    rewrite List.Forall_forall in Ed. intros kv Hkv.
    destruct (Ed kv Hkv) as [-> ->]. done.
  - destruct (mapM _ l) as [l'|] eqn:El; [|discriminate].
    injection Hx as <-. simpl. apply forallb_forall.
    apply mapM_Forall2 in El. intros y Hy.
    revert IH y Hy. induction El as [|v y l l' Hv _ IHl]; intros IH z Hz;
      [done|].
    inversion IH as [|? ? Hv' IH']; subst.
    destruct Hz as [<-|Hz]; [by apply Hv'|by apply IHl].
  - destruct (mapM _ l) as [l'|] eqn:El; [|discriminate].
    injection Hx as <-. simpl. apply forallb_forall.
    apply mapM_Forall2 in El. intros y Hy.
    revert IH y Hy. induction El as [|v y l l' Hv _ IHl]; intros IH z Hz;
      [done|].
    inversion IH as [|? ? Hv' IH']; subst.
    destruct Hz as [<-|Hz]; [by apply Hv'|by apply IHl].
Qed.

(** X2: whatever [_safe_repr_value] returns holds no managed value, no
    device descriptor and no foreign object any more, at any depth: every
    managed value has become a name wrapper and every device its text. *)
Theorem _safe_repr_value_resolved (v : PyVal) (prefix_attr : option string)
    (x : PyVal) :
  _safe_repr_value v prefix_attr = Ok x -> resolved x = true.
Proof. apply _safe_repr_value_resolved_aux. Qed.

Lemma _safe_repr_value_resolved_witness :
  let o := MkIRObject "layer.weight" 7 true ClsIRSubTensor None EmptyString in
  let v := VDict [(VDevice "cuda" (Some 0), VList [VIRObject o; VInt 1])] in
  let x := VDict [(VStr "cuda:0", VList [VIRValue "self.layer_weight_7"; VInt 1])] in
  _safe_repr_value v (Some "self.") = Ok x /\ resolved x = true.
Proof.
  intros o v x. split; [reflexivity|].
  apply (_safe_repr_value_resolved v (Some "self.") x). reflexivity.
Defined.

Lemma existsb_false_Forall {A} (f : A -> bool) (l : list A) :
  existsb f l = false -> Forall (fun x => f x = false) l.
Proof.
  induction l as [|x l IH]; simpl; [constructor|].
  intros H. apply orb_false_iff in H as [Hx Hl]. constructor; auto.
Qed.

Lemma _safe_repr_value_no_attr (v : PyVal) (p : option string) :
  has_attr v = false -> _safe_repr_value v p = _safe_repr_value v None.
Proof.
  induction v as [nm|o|a b c IHa IHb IHc|items IH|l IH|l IH
                  |z|s|b|t| |b| |t|t i|r s] using PyVal_nested_ind;
    intros Hv; simpl in *; try reflexivity.
  - rewrite Hv. by destruct p.
  - apply orb_false_iff in Hv as [Hv Hc].
    apply orb_false_iff in Hv as [Ha Hb].
    by rewrite (IHa Ha), (IHb Hb), (IHc Hc).
  - rewrite (dict_comp_ext_Forall (fun v => _safe_repr_value v p)
               (fun v => _safe_repr_value v None) items []); [done|].
    apply existsb_false_Forall in Hv.
    rewrite List.Forall_forall in IH, Hv |- *. intros kv Hkv.
    specialize (Hv kv Hkv). apply orb_false_iff in Hv as [Hk Hx].
    destruct (IH kv Hkv) as [IHk IHx]. split; auto.
  - rewrite (mapM_ext_Forall (fun v => _safe_repr_value v p)
               (fun v => _safe_repr_value v None) l); [done|].
    apply existsb_false_Forall in Hv.
    rewrite List.Forall_forall in IH, Hv |- *. intros x Hx. auto.
  - rewrite (mapM_ext_Forall (fun v => _safe_repr_value v p)
               (fun v => _safe_repr_value v None) l); [done|].
    apply existsb_false_Forall in Hv.
    rewrite List.Forall_forall in IH, Hv |- *. intros x Hx. auto.
Qed.

(** X3: the prefix touches attributes only.  For a value that holds no
    managed value flagged as an attribute, [tensor_name] gives the same text
    with any prefix as with none; for an attribute the prefix is put before
    the whole identifier. *)
Theorem tensor_name_prefix_only_for_attributes :
  (forall (v : PyVal) (prefix_attr : option string),
      has_attr v = false ->
      tensor_name v prefix_attr = tensor_name v None) /\
  (forall (o : IRObject) (prefix : string),
      is_attr o = true ->
      tensor_name (VIRObject o) (Some prefix)
      = Ok (prefix +:+ managed_name o None)).
Proof.
  split.
  - intros v p Hv. unfold tensor_name. by rewrite (_safe_repr_value_no_attr v p).
  - intros o prefix Ho. rewrite tensor_name_managed. unfold managed_name.
    by rewrite Ho.
Qed.

Lemma tensor_name_prefix_only_for_attributes_witness :
  let x := MkIRObject "x" 1 false ClsIRSubTensor None EmptyString in
  let w := MkIRObject "w" 2 true ClsIRSubTensor None EmptyString in
  tensor_name (VList [VIRObject x; VStr "w"]) (Some "self.")
  = tensor_name (VList [VIRObject x; VStr "w"]) None /\
  tensor_name (VIRObject w) (Some "self.") = Ok ("self." +:+ managed_name w None).
Proof.
  intros x w. split.
  - apply (proj1 tensor_name_prefix_only_for_attributes). reflexivity.
  - apply (proj2 tensor_name_prefix_only_for_attributes). reflexivity.
Defined.

(** X4: [_safe_repr_value] keeps the shape of a container.  A list gives a
    list and a tuple a tuple, of the same length, whose elements are the
    resolved elements in order; a dictionary gives a dictionary with
    pairwise different keys and no more entries than it had. *)
Theorem _safe_repr_value_shape (prefix_attr : option string) :
  (forall l x,
      _safe_repr_value (VList l) prefix_attr = Ok x ->
      exists l', x = VList l' /\
        Forall2 (fun v v' => _safe_repr_value v prefix_attr = Ok v') l l') /\
  (forall l x,
      _safe_repr_value (VTuple l) prefix_attr = Ok x ->
      exists l', x = VTuple l' /\
        Forall2 (fun v v' => _safe_repr_value v prefix_attr = Ok v') l l') /\
  (forall items x,
      _safe_repr_value (VDict items) prefix_attr = Ok x ->
      exists d, x = VDict d /\ distinct_keys py_eqb d /\
        (length d <= length items)%nat).
Proof.
  split; [|split].
  - intros l x Hx. simpl in Hx.
    destruct (mapM _ l) as [l'|] eqn:El; [|discriminate].
    injection Hx as <-. exists l'. split; [done|]. by apply mapM_Forall2 in El.
  - intros l x Hx. simpl in Hx.
    destruct (mapM _ l) as [l'|] eqn:El; [|discriminate].
    injection Hx as <-. exists l'. split; [done|]. by apply mapM_Forall2 in El.
  - intros items x Hx. simpl in Hx.
    destruct (dict_comp _ items []) as [d|] eqn:Ed; [|discriminate].
    injection Hx as <-. exists d. split; [done|].
    by apply dict_comp_shape in Ed.
Qed.

Lemma _safe_repr_value_shape_witness :
  let items := [(VDevice "cpu" None, VInt 1); (VStr "cpu", VInt 2)] in
  exists d, VDict [(VStr "cpu", VInt 2)] = VDict d /\
    distinct_keys py_eqb d /\ (length d <= length items)%nat.
Proof.
  intros items.
  apply (proj2 (proj2 (_safe_repr_value_shape None)) items). reflexivity.
Defined.

Lemma contains_char_replace (c new : ascii) (s : string) :
  new <> c -> contains_char c (replace c new s) = false.
Proof.
  intros Hne. induction s as [|a s IH]; [reflexivity|]. simpl.
  rewrite IH, orb_false_r.
  destruct (Ascii.eqb_spec a c) as [->|Ha].
  - by apply Ascii.eqb_neq.
  - by apply Ascii.eqb_neq.
Qed.

Lemma pretty_N_go_no_dot (x : N) (s : string) :
  contains_char "." s = false ->
  contains_char "." (pretty_N_go x s) = false.
Proof.
  revert s. induction (N.lt_wf_0 x) as [x _ IH]; intros s Hs.
  destruct (decide (x = 0)%N) as [->|Hx].
  - by rewrite pretty_N_go_0.
  - rewrite pretty_N_go_step by lia.
    apply IH; [apply N.div_lt; lia|].
    simpl. rewrite Hs. unfold pretty_N_char.
    by repeat case_match.
Qed.

Lemma str_int_no_dot (z : Z) : contains_char "." (str_int z) = false.
Proof.
  assert (HN : forall n : N, contains_char "." (pretty n) = false).
  { intros n. unfold pretty, pretty_N. case_decide; [reflexivity|].
    by apply pretty_N_go_no_dot. }
  unfold str_int, pretty, pretty_Z. destruct z as [|p|p].
  - reflexivity.
  - apply HN.
  - rewrite contains_char_app. unfold pretty, pretty_positive. rewrite HN.
    reflexivity.
Qed.

(** X5: the identifier of a managed value holds no dot unless a prefix
    brings one: without a prefix, or for a value that is not an attribute,
    every dot of the base name has become an underscore. *)
Theorem tensor_name_no_dot (o : IRObject) (prefix_attr : option string) :
  prefix_attr = None \/ is_attr o = false ->
  exists n, tensor_name (VIRObject o) prefix_attr = Ok n /\
            contains_char "." n = false.
Proof.
  intros Hp. exists (managed_name o None). split.
  - rewrite tensor_name_managed. unfold managed_name.
    destruct Hp as [->| ->]; [done|by destruct prefix_attr].
  - unfold managed_name. rewrite !contains_char_app, str_int_no_dot.
    by rewrite contains_char_replace.
Qed.

Lemma tensor_name_no_dot_witness :
  let o := MkIRObject "model.layers.0.weight" 42 true ClsIRSubTensor None
             EmptyString in
  exists n, tensor_name (VIRObject o) None = Ok n /\
            contains_char "." n = false.
Proof.
  intros o. apply (tensor_name_no_dot o None). by left.
Defined.

(** ** More on the container composer *)

Lemma app_empty_r (s : string) : s +:+ EmptyString = s.
Proof. induction s as [|c s IH]; [reflexivity|]. by rewrite app_cons, IH. Qed.

Lemma join_snoc_empty (sep : string) (names : list string) :
  names <> [] -> join sep (names ++ [EmptyString]) = join sep names +:+ sep.
Proof.
  unfold join. induction names as [|x [|y l] IH]; [done| |]; intros _.
  - simpl. by rewrite app_empty_r.
  - change (x +:+ sep +:+ String.concat sep ((y :: l) ++ [EmptyString])
            = (x +:+ sep +:+ String.concat sep (y :: l)) +:+ sep).
    rewrite IH by done. by rewrite !app_assoc_str.
Qed.

Lemma names_of_nonempty (ts : list PyVal) (skip_attr : bool)
    (p : option string) (names : list string) :
  names_of ts skip_attr p = Ok names ->
  Exists (fun t => skipped t skip_attr = false) ts -> names <> [].
Proof.
  revert names. induction ts as [|t ts IH]; intros names Hn Hex;
    [by inversion Hex|].
  simpl in Hn. destruct (skipped t skip_attr) eqn:Et.
  - apply (IH _ Hn). inversion Hex as [? ? H|]; [congruence|done].
  - destruct (tensor_name t p); [|discriminate].
    destruct (names_of ts skip_attr p); [|discriminate].
    by injection Hn as <-.
Qed.

Lemma names_of_no_skip (ts : list PyVal) (p : option string) :
  names_of ts false p = mapM (fun t => tensor_name t p) ts.
Proof.
  induction ts as [|t ts IH]; [reflexivity|]. simpl.
  assert (Ht : skipped t false = false).
  { destruct t; try reflexivity. simpl. by rewrite andb_false_r. }
  rewrite Ht, IH. reflexivity.
Qed.

(** X6: [tuple_name] and [return_name] render the same names.  When every
    element is skipped [return_name] gives the placeholder [_] and
    [tuple_name] gives [()]; otherwise [tuple_name] is the text of
    [return_name] between brackets, followed by a comma and a blank. *)
Theorem tuple_name_of_return_name (tensors : list PyVal) (skip_attr : bool)
    (prefix_attr : option string) (names : string) :
  return_name tensors skip_attr prefix_attr = Ok names ->
  (Forall (fun t => skipped t skip_attr = true) tensors ->
   names = "_" /\ tuple_name tensors skip_attr prefix_attr = Ok "()") /\
  (Exists (fun t => skipped t skip_attr = false) tensors ->
   tuple_name tensors skip_attr prefix_attr
   = Ok ("(" +:+ names +:+ ", " +:+ ")")).
Proof.
  unfold return_name, tuple_name.
  destruct (names_of tensors skip_attr prefix_attr) as [l|] eqn:El;
    [|discriminate].
  intros [= <-]. split.
  - intros Hall. rewrite names_of_all_skipped in El by done.
    by injection El as <-.
  - intros Hex. pose proof (names_of_nonempty _ _ _ _ El Hex) as Hne.
    rewrite join_snoc_empty by done.
    destruct l as [|x l]; [done|]. simpl length. cbv iota.
    change (S (length l) =? 0)%nat with false. cbv iota.
    by rewrite !app_assoc_str.
Qed.

Lemma tuple_name_of_return_name_witness :
  let x := VIRObject (MkIRObject "x" 1 false ClsIRTensor None EmptyString) in
  let w := VIRObject (MkIRObject "w" 2 true ClsIRTensor None EmptyString) in
  return_name [w; x; VInt 3] true None = Ok "x_1, 3" /\
  tuple_name [w; x; VInt 3] true None = Ok "(x_1, 3, )" /\
  tuple_name [w] true None = Ok "()".
Proof.
  intros x w. split; [reflexivity|]. split.
  - apply (proj2 (tuple_name_of_return_name [w; x; VInt 3] true None
                    "x_1, 3" eq_refl)).
    right. by left.
  - apply (proj1 (tuple_name_of_return_name [w] true None "_" eq_refl)).
    by repeat constructor.
Defined.

Lemma _safe_str_dict_from_fresh (val : list (string * PyVal))
    (p : option string) (acc : list (string * string)) :
  NoDup (map fst acc ++ map fst val) ->
  _safe_str_dict_from val p acc
  = match mapM (fun kv => do n <- tensor_name (snd kv) p; Ok (fst kv, n)) val with
    | Ok l => Ok (acc ++ l)
    | Raise e => Raise e
    end.
Proof.
  revert acc. induction val as [|[k v] val IH]; intros acc Hnd; simpl.
  - by rewrite app_nil_r.
  - unfold tensor_name. destruct (_safe_repr_value v p) as [x|]; [|reflexivity].
    rewrite (dict_set_fresh String.eqb k (py_repr x) acc).
    + rewrite IH.
      * fold (tensor_name). destruct (mapM _ val); [|reflexivity].
        by rewrite <- app_assoc.
      * rewrite map_app. simpl. by rewrite <- app_assoc.
    + simpl in Hnd. apply NoDup_app in Hnd as (_ & Hdisj & _).
      apply List.Forall_forall. intros [k0 v0] Hin. simpl.
      apply String.eqb_neq. intros ->. apply (Hdisj k).
      * apply list_elem_of_In. by apply (in_map fst _ (k, v0)).
      * by left.
Qed.

(** X7: on keyword arguments with pairwise different names, [kwargs_dict]
    keeps every name, in order, and maps it to the [tensor_name] of its
    value (without prefix); it raises exactly when one of those raises. *)
Theorem kwargs_dict_keeps_keys (kwargs : list (string * PyVal)) :
  NoDup (map fst kwargs) ->
  kwargs_dict kwargs
  = mapM (fun kv => do n <- tensor_name (snd kv) None; Ok (fst kv, n)) kwargs.
Proof.
  intros Hnd. unfold kwargs_dict, _safe_str_dict.
  rewrite _safe_str_dict_from_fresh by done.
  by destruct (mapM _ kwargs).
Qed.

Lemma kwargs_dict_keeps_keys_witness :
  let t := VIRObject (MkIRObject "t" 1 false ClsIRSubTensor None EmptyString) in
  kwargs_dict [("dim", VInt 0); ("other", t); ("mode", VStr "sum")]
  = Ok [("dim", "0"); ("other", "t_1"); ("mode", "'sum'")].
Proof.
  intros t.
  rewrite (kwargs_dict_keeps_keys
             [("dim", VInt 0); ("other", t); ("mode", VStr "sum")]).
  - reflexivity.
  - apply NoDup_ListNoDup. repeat constructor; simpl; intuition discriminate.
Defined.

(** X8: [emit_release] of a list that is not empty is [del] followed by
    what [return_name] renders for the list, and it raises when
    [return_name] does; on the empty list it returns the bare [del ],
    where [return_name] gives the placeholder. *)
Theorem emit_release_of_return_name (tensors : list PyVal) :
  (tensors <> [] ->
   emit_release tensors
   = match return_name tensors false None with
     | Ok names => Ok ("del " +:+ names)
     | Raise e => Raise e
     end) /\
  emit_release [] = Ok "del ".
Proof.
  split; [|reflexivity].
  intros Hne. unfold emit_release, return_name. rewrite names_of_no_skip.
  destruct (mapM _ tensors) as [names|] eqn:En; [|reflexivity].
  apply mapM_length in En.
  destruct names as [|n names]; [|reflexivity].
  destruct tensors; [done|discriminate].
Qed.

Lemma emit_release_of_return_name_witness :
  let x := VIRObject (MkIRObject "x" 1 false ClsIRTensor None EmptyString) in
  let y := VIRObject (MkIRObject "y" 2 false ClsIRTensor None EmptyString) in
  emit_release [x; y] = Ok "del x_1, y_2".
Proof.
  intros x y.
  rewrite (proj1 (emit_release_of_return_name [x; y])); [reflexivity|done].
Defined.

(** ** The reducer, data-load and naming helpers *)

Lemma length_app_str (s t : string) :
  String.length (s +:+ t) = (String.length s + String.length t)%nat.
Proof.
  induction s as [|c s IH]; [reflexivity|]. rewrite app_cons. simpl.
  by rewrite IH.
Qed.

Lemma app_inv_tail_str (s1 s2 t : string) :
  s1 +:+ t = s2 +:+ t -> s1 = s2.
Proof.
  revert s2. induction s1 as [|c s1 IH]; intros [|c' s2] H.
  - reflexivity.
  - apply (f_equal String.length) in H.
    rewrite app_empty_l, app_cons in H. simpl in H.
    rewrite length_app_str in H. lia.
  - apply (f_equal String.length) in H.
    rewrite app_empty_l, app_cons in H. simpl in H.
    rewrite length_app_str in H. lia.
  - rewrite !app_cons in H. injection H as -> H. f_equal. by apply IH.
Qed.

Lemma is_ok_tensor_name (v : PyVal) (p : option string) :
  is_ok (tensor_name v p) = supported v.
Proof.
  unfold tensor_name. rewrite <- (_safe_repr_value_supported v p).
  by destruct (_safe_repr_value v p).
Qed.

(** X9: [emit_reducer] ends with the [sync_grads] call on the handle of the
    reducer, after the timer probe when line timing is on, and reducers with
    different ids get different statements. *)
Theorem emit_reducer_handle (flags : CompileFlag) :
  (forall node,
      last (emit_reducer flags node)
      = Some (reducer_name node +:+ ".sync_grads()") /\
      length (emit_reducer flags node)
      = if line_timer flags then 2%nat else 1%nat) /\
  (forall n1 n2,
      emit_reducer flags n1 = emit_reducer flags n2 ->
      reducer_id n1 = reducer_id n2).
Proof.
  split.
  - intros node. unfold emit_reducer. rewrite last_snoc.
    by destruct (line_timer flags).
  - intros n1 n2 H.
    assert (Hlast : reducer_name n1 +:+ ".sync_grads()"
                    = reducer_name n2 +:+ ".sync_grads()").
    { apply (f_equal last) in H. unfold emit_reducer in H.
      rewrite !last_snoc in H. by apply (inj Some) in H. }
    apply app_inv_tail_str in Hlast. unfold reducer_name in Hlast.
    apply (inj (String.app _)) in Hlast. by apply (inj pretty) in Hlast.
Qed.

Lemma emit_reducer_handle_witness :
  emit_reducer {| line_timer := true |} {| reducer_id := 3 |}
  = ["nnscaler.runtime.function.print_time('self.wreducer3')";
     "self.wreducer3.sync_grads()"] /\
  forall n2,
    emit_reducer {| line_timer := true |} {| reducer_id := 3 |}
    = emit_reducer {| line_timer := true |} n2 ->
    3 = reducer_id n2.
Proof.
  split; [reflexivity|].
  intros n2. apply (proj2 (emit_reducer_handle {| line_timer := true |})
                      {| reducer_id := 3 |} n2).
Defined.

(** X10: two cells with the same display name get the same [node_name]
    only if their counter ids are the same. *)
Theorem node_name_distinct_cid (n1 n2 : NamedCell) :
  cell_name n1 = cell_name n2 ->
  node_name n1 = node_name n2 ->
  cell_cid n1 = cell_cid n2.
Proof.
  unfold node_name. intros -> H.
  apply (inj (String.app _)) in H. by apply (inj pretty) in H.
Qed.

Lemma node_name_distinct_cid_witness :
  node_name {| cell_name := "linear"; cell_cid := 12 |} = "linear12" /\
  forall n2,
    cell_name n2 = "linear" ->
    node_name {| cell_name := "linear"; cell_cid := 12 |} = node_name n2 ->
    12 = cell_cid n2.
Proof.
  split; [reflexivity|].
  intros n2 Hn. apply (node_name_distinct_cid
                         {| cell_name := "linear"; cell_cid := 12 |} n2).
  by rewrite Hn.
Defined.

(** X11: [emit_dataloader] returns exactly when the node has an input and
    its first input and all its outputs are supported values, and what it
    returns is one statement; inputs after the first are not read. *)
Theorem emit_dataloader_one_statement (node : IRDataOperation) :
  is_ok (emit_dataloader node)
  = forallb supported (data_outputs node) &&
    match data_inputs node with
    | [] => false
    | t :: _ => supported t
    end /\
  (forall codes, emit_dataloader node = Ok codes -> length codes = 1%nat) /\
  (forall t rest rest',
      data_inputs node = t :: rest ->
      emit_dataloader node
      = emit_dataloader {| data_inputs := t :: rest';
                           data_outputs := data_outputs node |}).
Proof.
  unfold emit_dataloader, return_name. split; [|split].
  - rewrite names_of_no_skip.
    pose proof (is_ok_mapM (fun t => tensor_name t None) (data_outputs node))
      as Hok.
    rewrite (forallb_Forall_ext _ supported) in Hok
      by (apply List.Forall_forall; intros; apply is_ok_tensor_name).
    rewrite <- Hok.
    destruct (mapM _ (data_outputs node)); [|reflexivity]. simpl.
    destruct (data_inputs node) as [|t rest]; [reflexivity|].
    rewrite <- (is_ok_tensor_name t None). by destruct (tensor_name t None).
  - intros codes.
    destruct (names_of _ _ _); [|discriminate].
    destruct (data_inputs node); [discriminate|].
    destruct (tensor_name _ _); [|discriminate]. by intros [= <-].
  - intros t rest rest' ->. reflexivity.
Qed.

Lemma emit_dataloader_one_statement_witness :
  let x := VIRObject (MkIRObject "x" 1 false ClsIRTensor None EmptyString) in
  let dl := VIRObject (MkIRObject "dataloader" 0 false ClsIRObject None
                         EmptyString) in
  let node := {| data_inputs := [dl]; data_outputs := [x] |} in
  emit_dataloader node = Ok ["x_1 = next(dataloader_0)"] /\
  length ["x_1 = next(dataloader_0)"] = 1%nat /\
  emit_dataloader node
  = emit_dataloader {| data_inputs := [dl; VOther "?" "?"];
                       data_outputs := data_outputs node |}.
Proof.
  intros x dl node. split; [reflexivity|]. split.
  - apply (proj1 (proj2 (emit_dataloader_one_statement node))). reflexivity.
  - apply (proj2 (proj2 (emit_dataloader_one_statement node)) dl []).
    reflexivity.
Defined.

(** ** More on [emit_fnode] *)

Lemma recorded_dict_set (k : Z) (o : IRObject) (path : list PyVal)
    (acc : list (IRObject * list PyVal)) :
  recorded k (dict_set irobject_eqb o path acc)
  = recorded k acc || (tid o =? k)%Z.
Proof.
  unfold recorded. induction acc as [|[o0 p0] acc IH]; simpl.
  - by rewrite orb_false_r.
  - unfold irobject_eqb at 1.
    destruct (Z.eqb_spec (tid o0) (tid o)) as [E|E]; simpl.
    + rewrite <- E. destruct (tid o0 =? k)%Z; simpl; [done|].
      by rewrite orb_false_r.
    + rewrite IH. by rewrite orb_assoc.
Qed.

Lemma r_recorded (k : Z) (t : PyVal) :
  forall (cp : list PyVal) (acc : list (IRObject * list PyVal)),
    recorded k (r t cp acc) = recorded k acc || occurs_in k t.
Proof.
  induction t as [nm|o|a b c IHa IHb IHc|items IH|l IH|l IH
                  |z|s|b|t| |b| |t|t i|x s] using PyVal_nested_ind;
    intros cp acc; simpl; try (by rewrite orb_false_r).
  - apply recorded_dict_set.
  - revert acc. induction IH as [|[k0 v] items [_ Hv] _ IHitems];
      intros acc; simpl; [by rewrite orb_false_r|].
    rewrite IHitems, Hv. by rewrite orb_assoc.
  - generalize 0. revert acc.
    induction IH as [|v l Hv _ IHl]; intros acc i; simpl;
      [by rewrite orb_false_r|].
    rewrite IHl, Hv. by rewrite orb_assoc.
  - generalize 0. revert acc.
    induction IH as [|v l Hv _ IHl]; intros acc i; simpl;
      [by rewrite orb_false_r|].
    rewrite IHl, Hv. by rewrite orb_assoc.
Qed.

Lemma r_distinct (t : PyVal) :
  forall (cp : list PyVal) (acc : list (IRObject * list PyVal)),
    distinct_keys irobject_eqb acc ->
    distinct_keys irobject_eqb (r t cp acc).
Proof.
  induction t as [nm|o|a b c IHa IHb IHc|items IH|l IH|l IH
                  |z|s|b|t| |b| |t|t i|x s] using PyVal_nested_ind;
    intros cp acc Hacc; simpl; try exact Hacc.
  - by apply dict_set_distinct.
  - revert acc Hacc. induction IH as [|[k0 v] items [_ Hv] _ IHitems];
      intros acc Hacc; simpl; [exact Hacc|].
    apply IHitems. by apply Hv.
  - generalize 0. revert acc Hacc.
    induction IH as [|v l Hv _ IHl]; intros acc Hacc i; simpl; [exact Hacc|].
    apply IHl. by apply Hv.
  - generalize 0. revert acc Hacc.
    induction IH as [|v l Hv _ IHl]; intros acc Hacc i; simpl; [exact Hacc|].
    apply IHl. by apply Hv.
Qed.

(** X12: the dictionary [irobj_path] that [emit_fnode] builds has one entry
    per unique id, for exactly the managed values the walk reaches through
    lists, tuples and the values of dictionaries (not inside slices or
    dictionary keys), and every recorded path starts with the index of a
    top-level output. *)
Theorem irobj_path_invariant (node : IRFwOperation) :
  distinct_keys irobject_eqb (irobj_path_of node) /\
  (forall k, recorded k (irobj_path_of node)
             = occurs_in k (VTuple (fw_outputs node))) /\
  Forall (fun kv => top_indexed (length (fw_outputs node)) (snd kv))
         (irobj_path_of node).
Proof.
  split; [|split].
  - apply r_distinct. exact I.
  - intros k. unfold irobj_path_of. by rewrite r_recorded.
  - apply irobj_path_top_indexed.
Qed.

Lemma all_leaves_Forall (irobj_path : list (IRObject * list PyVal)) :
  all_leaves irobj_path = true <->
  Forall (fun kv => length (snd kv) = 1%nat) irobj_path.
Proof.
  unfold all_leaves. induction irobj_path as [|[o p] l IH]; simpl.
  - split; [constructor|done].
  - rewrite andb_true_iff, IH, Nat.eqb_eq. split.
    + intros [H1 H2]. by constructor.
    + by inversion 1.
Qed.

Lemma r_no_managed (t : PyVal) :
  forall (cp : list PyVal) (acc : list (IRObject * list PyVal)),
    (forall k, occurs_in k t = false) -> r t cp acc = acc.
Proof.
  induction t as [nm|o|a b c IHa IHb IHc|items IH|l IH|l IH
                  |z|s|b|t| |b| |t|t i|x s] using PyVal_nested_ind;
    intros cp acc Hno; simpl; try reflexivity.
  - specialize (Hno (tid o)). simpl in Hno. lia.
  - simpl in Hno. revert acc.
    induction IH as [|[k0 v] items [_ Hv] _ IHitems]; intros acc; simpl;
      [reflexivity|].
    rewrite Hv.
    + apply IHitems. intros k. specialize (Hno k). simpl in Hno.
      by apply orb_false_iff in Hno as [_ ?].
    + intros k. specialize (Hno k). simpl in Hno.
      by apply orb_false_iff in Hno as [? _].
  - simpl in Hno. generalize 0. revert acc.
    induction IH as [|v l Hv _ IHl]; intros acc i; simpl; [reflexivity|].
    rewrite Hv.
    + apply IHl. intros k. specialize (Hno k). simpl in Hno.
      by apply orb_false_iff in Hno as [_ ?].
    + intros k. specialize (Hno k). simpl in Hno.
      by apply orb_false_iff in Hno as [? _].
  - simpl in Hno. generalize 0. revert acc.
    induction IH as [|v l Hv _ IHl]; intros acc i; simpl; [reflexivity|].
    rewrite Hv.
    + apply IHl. intros k. specialize (Hno k). simpl in Hno.
      by apply orb_false_iff in Hno as [_ ?].
    + intros k. specialize (Hno k). simpl in Hno.
      by apply orb_false_iff in Hno as [? _].
Qed.

Lemma r_elts_flat (l : list PyVal) (i : Z)
    (acc : list (IRObject * list PyVal)) :
  Forall (fun t => isinstance_IRObject t = true \/
                   forall k, occurs_in k t = false) l ->
  Forall (fun kv => length (snd kv) = 1%nat) acc ->
  Forall (fun kv => length (snd kv) = 1%nat)
         (r_elts (fun v cp acc => r v cp acc) [] l i acc).
Proof.
  intros Hl. revert i acc.
  induction Hl as [|t l Ht _ IH]; intros i acc Hacc; simpl; [exact Hacc|].
  apply IH. destruct Ht as [Ht|Ht].
  - destruct t; try discriminate. simpl.
    by apply (dict_set_paths (fun p => length p = 1%nat)).
  - by rewrite r_no_managed.
Qed.

Lemma extract_outputs_length (targets : list string)
    (items : list (IRObject * list PyVal)) (extractions : list string) :
  extract_outputs targets items = Ok extractions ->
  length extractions = length (deep_entries items).
Proof.
  revert extractions.
  induction items as [|[t path] items IH]; intros ex H; simpl in H.
  - by injection H as <-.
  - unfold deep_entries. simpl.
    destruct (length path =? 1)%nat; simpl; [by apply IH|].
    destruct path as [|p0 steps]; [discriminate|].
    destruct (subscript targets p0); [|discriminate]. simpl in H.
    destruct (extract_outputs targets items) as [codes|]; [|discriminate].
    simpl in H. injection H as <-. simpl. f_equal. by apply IH.
Qed.

(** The nested branch of [emit_fnode] always runs to its end. *)
Lemma emit_fnode_nested_run (self : FuncEmission) (flags : CompileFlag)
    (node : IRFwOperation) (runtime_devid plan_ndevs runtime_ndevs : Z)
    (prefix_attr : option string) (gen : Z) (body : string) :
  fnode_body self node runtime_devid plan_ndevs runtime_ndevs prefix_attr
  = Ok body ->
  all_leaves (irobj_path_of node) = false ->
  exists targets ims extractions,
    emit_fnode self flags node runtime_devid plan_ndevs runtime_ndevs
      prefix_attr gen
    = Ok (((fnode_header flags node
            ++ [join ", " targets +:+ " = " +:+ body])
           ++ extractions)
          ++ map (fun im_output => "del " +:+ im_output) ims,
          gen + Z.of_nat (length (unmanaged_slots (fw_outputs node)))) /\
    length ims = length (unmanaged_slots (fw_outputs node)) /\
    length extractions = length (deep_entries (irobj_path_of node)).
Proof.
  intros Hbody Hnested.
  destruct (bind_outputs_spec (fw_outputs node) gen) as (targets & k & Hb & HB).
  destruct (Bound_length _ _ _ HB) as [Hlen Hk].
  destruct (extract_outputs_Ok targets (irobj_path_of node)) as [ex Hex].
  { rewrite Hlen. apply irobj_path_top_indexed. }
  exists targets, (map im_name (seqZ (gen + 1) (Z.of_nat k))), ex.
  assert (Ek : length (unmanaged_slots (fw_outputs node)) = k).
  { unfold unmanaged_slots. rewrite <- Hk.
    by rewrite length_map, length_seqZ, Nat2Z.id. }
  split; [|split].
  - unfold emit_fnode. rewrite Hbody.
    destruct (length (fw_outputs node) =? 0)%nat eqn:E0.
    { apply Nat.eqb_eq, length_zero_iff_nil, all_leaves_no_outputs in E0.
      congruence. }
    rewrite Hnested, Hb, Hex, Ek. reflexivity.
  - rewrite Ek. by rewrite length_map, length_seqZ, Nat2Z.id.
  - by apply extract_outputs_length in Hex.
Qed.

(** X13: how [emit_fnode] ends.  An exception of the right-hand side (the
    inputs, the keyword arguments, the rule) is passed on.  Once the
    right-hand side is built, the nested branch always returns, whatever the
    outputs hold; the direct branch returns when every top-level output is a
    supported value and raises [ValueError] otherwise. *)
Theorem emit_fnode_returns_or_raises (self : FuncEmission)
    (flags : CompileFlag) (node : IRFwOperation)
    (runtime_devid plan_ndevs runtime_ndevs : Z)
    (prefix_attr : option string) (gen : Z) :
  match fnode_body self node runtime_devid plan_ndevs runtime_ndevs
          prefix_attr,
        emit_fnode self flags node runtime_devid plan_ndevs runtime_ndevs
          prefix_attr gen with
  | Raise e, res => res = Raise e
  | Ok _, Ok _ =>
      all_leaves (irobj_path_of node) = false \/
      forallb supported (fw_outputs node) = true
  | Ok _, Raise e =>
      e = ValueError /\ all_leaves (irobj_path_of node) = true /\
      forallb supported (fw_outputs node) = false
  end.
Proof.
  destruct (fnode_body self node runtime_devid plan_ndevs runtime_ndevs
              prefix_attr) as [body|e] eqn:Hbody.
  2: { unfold emit_fnode. by rewrite Hbody. }
  destruct (all_leaves (irobj_path_of node)) eqn:Hleaves.
  2: { destruct (emit_fnode_nested_run self flags node runtime_devid
                   plan_ndevs runtime_ndevs prefix_attr gen body Hbody Hleaves)
         as (targets & ims & ex & -> & _). by left. }
  unfold emit_fnode. rewrite Hbody.
  destruct (length (fw_outputs node) =? 0)%nat eqn:E0.
  { right. apply Nat.eqb_eq, length_zero_iff_nil in E0. by rewrite E0. }
  rewrite Hleaves.
  pose proof (is_ok_mapM (fun t => tensor_name t None) (fw_outputs node))
    as Hok.
  rewrite (forallb_Forall_ext _ supported) in Hok.
  2: { apply Forall_forall. intros t _. apply is_ok_tensor_name. }
  destruct (mapM (fun t => tensor_name t None) (fw_outputs node))
    as [names|e] eqn:Hn; simpl in Hok |- *.
  - right. by symmetry.
  - split; [|split; [reflexivity|by symmetry]].
    apply mapM_Raise, Exists_exists in Hn as (t & _ & Ht).
    by apply tensor_name_raises in Ht.
Qed.

Lemma extract_outputs_statements (targets : list string)
    (items : list (IRObject * list PyVal)) (extractions : list string) :
  Forall (fun kv => top_indexed (length targets) (snd kv)) items ->
  extract_outputs targets items = Ok extractions ->
  Forall2 (extraction_statement targets) (deep_entries items) extractions.
Proof.
  intros Hall. revert extractions.
  induction Hall as [|[t path] items (i & rest & Hp & Hi) _ IH];
    intros ex H; simpl in H.
  - injection H as <-. constructor.
  - simpl in Hp. subst path. unfold deep_entries. simpl.
    change (length (VInt i :: rest) =? 1)%nat with (length rest =? 0)%nat in H.
    destruct (length rest =? 0)%nat eqn:El; simpl; [by apply IH|].
    unfold subscript in H.
    destruct (Z.ltb_spec i 0) as [|_]; [lia|].
    destruct (Z.ltb_spec i 0) as [|_]; [lia|].
    destruct (targets !! Z.to_nat i) as [out|] eqn:Eo; [|discriminate].
    destruct (extract_outputs targets items) as [codes|]; [|discriminate].
    injection H as <-.
    constructor; [|by apply IH].
    exists i, rest, out. repeat split; [lia|exact Eo].
Qed.

(** The nested branch of [emit_fnode], statement by statement. *)
Lemma emit_fnode_nested_statements (self : FuncEmission) (flags : CompileFlag)
    (node : IRFwOperation) (runtime_devid plan_ndevs runtime_ndevs : Z)
    (prefix_attr : option string) (gen : Z) (body : string) :
  fnode_body self node runtime_devid plan_ndevs runtime_ndevs prefix_attr
  = Ok body ->
  all_leaves (irobj_path_of node) = false ->
  exists targets extractions,
    let k := length (unmanaged_slots (fw_outputs node)) in
    let im_outputs := map im_name (seqZ (gen + 1) (Z.of_nat k)) in
    emit_fnode self flags node runtime_devid plan_ndevs runtime_ndevs
      prefix_attr gen
    = Ok (fnode_header flags node
          ++ [join ", " targets +:+ " = " +:+ body]
          ++ extractions
          ++ map (fun im_output => "del " +:+ im_output) im_outputs,
          gen + Z.of_nat k) /\
    Bound (fw_outputs node) targets im_outputs /\
    Forall2 (extraction_statement targets)
            (deep_entries (irobj_path_of node)) extractions.
Proof.
  intros Hbody Hnested.
  destruct (bind_outputs_spec (fw_outputs node) gen) as (targets & k & Hb & HB).
  destruct (Bound_length _ _ _ HB) as [Hlen Hk].
  destruct (extract_outputs_Ok targets (irobj_path_of node)) as [ex Hex].
  { rewrite Hlen. apply irobj_path_top_indexed. }
  assert (Ek : length (unmanaged_slots (fw_outputs node)) = k).
  { unfold unmanaged_slots. rewrite <- Hk.
    by rewrite length_map, length_seqZ, Nat2Z.id. }
  exists targets, ex. cbv zeta. rewrite Ek.
  split; [|split; [exact HB|]].
  - unfold emit_fnode. rewrite Hbody.
    destruct (length (fw_outputs node) =? 0)%nat eqn:E0.
    { apply Nat.eqb_eq, length_zero_iff_nil, all_leaves_no_outputs in E0.
      congruence. }
    rewrite Hnested, Hb, Hex. by rewrite <- !app_assoc.
  - apply extract_outputs_statements; [|exact Hex].
    rewrite Hlen. apply irobj_path_top_indexed.
Qed.

(** X14: the statements and the id counter of [emit_fnode].  The result
    starts with the header lines.  In the direct branch one statement
    follows, the right-hand side itself for a node without outputs and
    otherwise the assignment of the right-hand side to the names of the
    outputs, and the counter is unchanged.  In the nested branch the
    assignment, which binds every managed top-level output to its own name
    and every other one to the next intermediate name, is followed by one
    extraction statement for each entry of [irobj_path] below the top level,
    in order, and then by one [del] for each intermediate name, one per
    top-level output that is not a managed value; the counter advances by
    the number of those outputs. *)
Theorem emit_fnode_statements_and_counter (self : FuncEmission)
    (flags : CompileFlag) (node : IRFwOperation)
    (runtime_devid plan_ndevs runtime_ndevs : Z)
    (prefix_attr : option string) (gen gen' : Z) (codes : list string) :
  emit_fnode self flags node runtime_devid plan_ndevs runtime_ndevs
    prefix_attr gen = Ok (codes, gen') ->
  exists body,
    fnode_body self node runtime_devid plan_ndevs runtime_ndevs prefix_attr
    = Ok body /\
    if all_leaves (irobj_path_of node) then
      gen' = gen /\
      exists names,
        mapM (fun t => tensor_name t None) (fw_outputs node) = Ok names /\
        codes
        = fnode_header flags node
          ++ [if (length (fw_outputs node) =? 0)%nat then body
              else join ", " names +:+ " = " +:+ body]
    else
      exists targets extractions,
        let k := length (unmanaged_slots (fw_outputs node)) in
        let im_outputs := map im_name (seqZ (gen + 1) (Z.of_nat k)) in
        codes
        = fnode_header flags node
          ++ [join ", " targets +:+ " = " +:+ body]
          ++ extractions
          ++ map (fun im_output => "del " +:+ im_output) im_outputs /\
        Bound (fw_outputs node) targets im_outputs /\
        Forall2 (extraction_statement targets)
                (deep_entries (irobj_path_of node)) extractions /\
        length extractions = length (deep_entries (irobj_path_of node)) /\
        length im_outputs = k /\
        gen' = gen + Z.of_nat k.
Proof.
  intros H.
  destruct (fnode_body self node runtime_devid plan_ndevs runtime_ndevs
              prefix_attr) as [body|e] eqn:Hbody.
  2: { unfold emit_fnode in H. by rewrite Hbody in H. }
  exists body. split; [reflexivity|].
  destruct (all_leaves (irobj_path_of node)) eqn:Hleaves.
  2: { destruct (emit_fnode_nested_statements self flags node runtime_devid
                   plan_ndevs runtime_ndevs prefix_attr gen body Hbody Hleaves)
         as (targets & ex & Heq & HB & Hex).
       cbv zeta in Heq, HB. rewrite Heq in H. injection H as <- <-.
       exists targets, ex. cbv zeta.
       split; [reflexivity|split; [exact HB|split; [exact Hex|]]].
       split; [symmetry; eapply Forall2_length, Hex|].
       split; [|reflexivity].
       by rewrite length_map, length_seqZ, Nat2Z.id. }
  unfold emit_fnode in H. rewrite Hbody in H.
  destruct (length (fw_outputs node) =? 0)%nat eqn:E0.
  { injection H as <- <-. split; [reflexivity|].
    apply Nat.eqb_eq, length_zero_iff_nil in E0. rewrite E0.
    by exists []. }
  rewrite Hleaves in H.
  destruct (mapM (fun t => tensor_name t None) (fw_outputs node))
    as [names|]; [|discriminate].
  injection H as <- <-. split; [reflexivity|]. by exists names.
Qed.

Lemma emit_fnode_statements_and_counter_witness :
  let node :=
    {| fw_comment := Some "split"; fw_signature := "torch.split";
       fw_inputs := [VIRObject (tensor "x" 1)]; fw_kwargs := [];
       fw_outputs := [VIRObject (tensor "a" 2); VNone;
                      VList [VIRObject (tensor "b" 3);
                             VTuple [VIRObject (tensor "c" 4)]]] |} in
  exists body,
    fnode_body call_emitter node 0 1 1 None = Ok body /\
    exists targets extractions,
      let im_outputs := map im_name (seqZ (100 + 1) (Z.of_nat 2)) in
      ["# split"; "a_2, im_output_101, im_output_102 = torch.split(x_1)";
       "b_3 = im_output_102[0]"; "c_4 = im_output_102[1][0]";
       "del im_output_101"; "del im_output_102"]
      = fnode_header no_timer node
        ++ [join ", " targets +:+ " = " +:+ body]
        ++ extractions
        ++ map (fun im_output => "del " +:+ im_output) im_outputs /\
      Bound (fw_outputs node) targets im_outputs /\
      Forall2 (extraction_statement targets)
              (deep_entries (irobj_path_of node)) extractions /\
      length extractions = length (deep_entries (irobj_path_of node)) /\
      length im_outputs = 2%nat /\
      102 = 100 + Z.of_nat 2.
Proof.
  intros node.
  exact (emit_fnode_statements_and_counter call_emitter no_timer node 0 1 1
           None 100 102 _ eq_refl).
Defined.

(** X15: when no top-level output is a container that holds a managed
    value, [emit_fnode] takes the direct branch: after the header it emits
    one assignment whose targets are what [return_name] gives for the
    outputs, and leaves the id counter as it is. *)
Theorem emit_fnode_direct_assignment (self : FuncEmission)
    (flags : CompileFlag) (node : IRFwOperation)
    (runtime_devid plan_ndevs runtime_ndevs : Z)
    (prefix_attr : option string) (gen : Z) (body : string) :
  fnode_body self node runtime_devid plan_ndevs runtime_ndevs prefix_attr
  = Ok body ->
  fw_outputs node <> [] ->
  Forall (fun t => isinstance_IRObject t = true \/
                   forall k, occurs_in k t = false) (fw_outputs node) ->
  all_leaves (irobj_path_of node) = true /\
  emit_fnode self flags node runtime_devid plan_ndevs runtime_ndevs
    prefix_attr gen
  = match return_name (fw_outputs node) false None with
    | Ok names => Ok (fnode_header flags node ++ [names +:+ " = " +:+ body], gen)
    | Raise e => Raise e
    end.
Proof.
  intros Hbody Hne Hflat.
  assert (Hleaves : all_leaves (irobj_path_of node) = true).
  { apply all_leaves_Forall. unfold irobj_path_of. simpl.
    apply r_elts_flat; [exact Hflat|constructor]. }
  split; [exact Hleaves|].
  unfold emit_fnode, return_name. rewrite Hbody, Hleaves, names_of_no_skip.
  destruct (fw_outputs node) as [|t ts] eqn:Eo; [done|].
  change (length (t :: ts) =? 0)%nat with false. cbv iota.
  destruct (mapM (fun t => tensor_name t None) (t :: ts)) as [names|] eqn:En;
    [|reflexivity].
  apply mapM_length in En. destruct names; [discriminate|reflexivity].
Qed.

Lemma emit_fnode_direct_assignment_witness :
  let node :=
    {| fw_comment := None; fw_signature := "torch.max";
       fw_inputs := [VIRObject (tensor "x" 1)]; fw_kwargs := [];
       fw_outputs := [VIRObject (tensor "values" 2); VList [VInt 0; VNone];
                      VIRObject (tensor "indices" 3)] |} in
  all_leaves (irobj_path_of node) = true /\
  emit_fnode call_emitter no_timer node 0 1 1 None 100
  = Ok (["values_2, [0, None], indices_3 = torch.max(x_1)"], 100).
Proof.
  intros node.
  apply (emit_fnode_direct_assignment call_emitter no_timer node 0 1 1 None
           100 "torch.max(x_1)"); [reflexivity|done|].
  repeat constructor; right; intros k; reflexivity.
Defined.

(** ** More on [emit_adapter] *)

Lemma is_ok_names_of (ts : list PyVal) (p : option string) :
  is_ok (names_of ts false p) = forallb supported ts.
Proof.
  rewrite names_of_no_skip, is_ok_mapM.
  apply forallb_Forall_ext, Forall_forall. intros t _.
  apply is_ok_tensor_name.
Qed.

Lemma is_ok_emit_prim (flags : CompileFlag) (p : option string)
    (async_op : bool) (prim : Prim) :
  is_ok (emit_prim flags p async_op prim)
  = forallb supported (prim_inputs prim)
    && forallb supported (prim_outputs prim).
Proof.
  unfold emit_prim.
  assert (Hi : is_ok (itensors_of p prim)
               = forallb supported (prim_inputs prim)).
  { unfold itensors_of. destruct (prim_inputs prim) as [|t [|t' l]] eqn:El.
    - reflexivity.
    - rewrite is_ok_tensor_name. simpl. by rewrite andb_true_r.
    - unfold tuple_name. rewrite <- (is_ok_names_of _ p).
      by destruct (names_of (t :: t' :: l) false p). }
  rewrite <- Hi, <- (is_ok_names_of _ None).
  destruct (itensors_of p prim); [|reflexivity].
  destruct (kwargs_name_Ok (emitted_kwargs async_op prim)) as [kw ->].
  unfold return_name.
  by destruct (names_of (prim_outputs prim) false None).
Qed.

Lemma emit_prim_length (flags : CompileFlag) (p : option string)
    (async_op : bool) (prim : Prim) (codes : list string) :
  emit_prim flags p async_op prim = Ok codes ->
  length codes = if line_timer flags then 2%nat else 1%nat.
Proof.
  unfold emit_prim.
  destruct (itensors_of p prim); [|discriminate].
  destruct (kwargs_name (emitted_kwargs async_op prim)); [|discriminate].
  destruct (return_name (prim_outputs prim) false None); [|discriminate].
  intros [= <-]. by destruct (line_timer flags).
Qed.

Lemma emit_prim_non_collective (flags : CompileFlag) (p : option string)
    (async_op : bool) (prim : Prim) :
  isinstance_CommPrim prim = false ->
  emit_prim flags p async_op prim = emit_prim flags p false prim.
Proof.
  intros H. unfold emit_prim, emitted_kwargs. rewrite H.
  by rewrite andb_false_r.
Qed.

Lemma concat_length_const {A} (n : nat) (ls : list (list A)) :
  Forall (fun l => length l = n) ls ->
  length (concat ls) = (n * length ls)%nat.
Proof.
  induction 1 as [|l ls Hl _ IH]; simpl; [lia|].
  rewrite length_app, Hl, IH. lia.
Qed.

Lemma mapM_Forall_out {A B} (f : A -> Res B) (Q : B -> Prop) (l : list A)
    (ys : list B) :
  (forall x y, f x = Ok y -> Q y) -> mapM f l = Ok ys -> Forall Q ys.
Proof.
  intros HQ H. apply mapM_Forall2 in H.
  induction H as [|x y l ys Hxy _ IH]; constructor; eauto.
Qed.

(** X16: what the block under [if async_op:] decides when the primitives
    are pairwise distinct objects.  The flag is never turned on; it stays on
    exactly when all collectives share one device set and either at most
    one primitive is not a collective or no collective comes before a
    non-collective one. *)
Theorem check_async_decision (prims : list Prim) (async_op : bool) :
  NoDup (map prim_oid prims) ->
  check_async prims async_op
  = Ok (async_op && spec_devices_ok prims &&
        ((length (List.filter (fun p => negb (isinstance_CommPrim p)) prims)
          <=? 1)%nat
         || spec_ordering_ok prims)).
Proof.
  intros Hnd. destruct async_op; [|reflexivity].
  rewrite (check_async_exact prims Hnd). f_equal. simpl.
  rewrite andb_comm. f_equal. f_equal.
  rewrite Nat.ltb_antisym. by rewrite negb_involutive.
Qed.

Lemma check_async_decision_witness :
  let ps := [move 1 1 2; all_reduce 2 [0; 1] 2 3; all_reduce 3 [1; 0] 3 4] in
  check_async ps true = Ok true /\
  check_async (ps ++ [move 4 4 5]) true = Ok false.
Proof.
  intros ps. split.
  - rewrite (check_async_decision ps true); [reflexivity|].
    apply NoDup_ListNoDup. repeat constructor; simpl; lia.
  - rewrite (check_async_decision (ps ++ [move 4 4 5]) true); [reflexivity|].
    apply NoDup_ListNoDup. repeat constructor; simpl; lia.
Defined.

Lemma emit_prim_statements (flags : CompileFlag) (p : option string)
    (async_op : bool) (prim : Prim) (block : list string) :
  emit_prim flags p async_op prim = Ok block ->
  prim_statements flags p async_op prim block.
Proof.
  unfold emit_prim, prim_statements.
  destruct (itensors_of p prim) as [itensors|]; [|discriminate].
  destruct (kwargs_name (emitted_kwargs async_op prim)) as [kwargs|];
    [|discriminate].
  destruct (return_name (prim_outputs prim) false None) as [outputs|];
    [|discriminate].
  intros [= <-]. by exists itensors, kwargs, outputs.
Qed.

(** X17: [emit_adapter] emits, for each primitive it walks and in their
    order, one call statement, preceded by one timer probe with the
    signature of the primitive when line timing is on, and nothing else.
    The call assigns to the rendered outputs the signature applied to the
    rendered inputs and keyword arguments, the latter under the flag that
    the analysis of the sequence left. *)
Theorem emit_adapter_statement_count (flags : CompileFlag) (node : IRAdapter)
    (prefix_attr : option string) (async_op : bool) (codes : list string) :
  emit_adapter flags node prefix_attr async_op = Ok codes ->
  exists flag blocks,
    check_async (selected_prims node) async_op = Ok flag /\
    Forall2 (prim_statements flags prefix_attr flag)
            (selected_prims node) blocks /\
    codes = concat blocks /\
    length codes
    = ((if line_timer flags then 2 else 1) * length (selected_prims node))%nat.
Proof.
  unfold emit_adapter.
  destruct (negb (length (device node) =? 1)%nat); [discriminate|].
  destruct (check_async (selected_prims node) async_op) as [b|];
    [|discriminate]. simpl.
  destruct (mapM (emit_prim flags prefix_attr b) (selected_prims node))
    as [cs|] eqn:Em; [|discriminate].
  intros [= <-]. exists b, cs.
  split; [reflexivity|split; [|split; [reflexivity|]]].
  - apply mapM_Forall2 in Em.
    eapply Forall2_impl; [exact Em|].
    intros prim block. apply emit_prim_statements.
  - rewrite (concat_length_const (if line_timer flags then 2 else 1)%nat).
    + f_equal. by apply mapM_length in Em.
    + eapply mapM_Forall_out; [|exact Em].
      intros x y. apply emit_prim_length.
Qed.

Lemma emit_adapter_statement_count_witness :
  let flags := {| line_timer := true |} in
  let node := adapter_of [all_reduce 1 [0] 1 2; move 2 2 3] in
  let codes :=
    ["nnscaler.runtime.function.print_time('nnscaler.runtime.adapter.all_reduce')";
     "t_2 = nnscaler.runtime.adapter.all_reduce(t_1, ranks=[0])";
     "nnscaler.runtime.function.print_time('nnscaler.runtime.adapter.move')";
     "t_3 = nnscaler.runtime.adapter.move(t_2, )"] in
  exists flag blocks,
    check_async (selected_prims node) false = Ok flag /\
    Forall2 (prim_statements flags None flag) (selected_prims node) blocks /\
    codes = concat blocks /\
    length codes = (2 * 2)%nat.
Proof.
  intros flags node codes.
  exact (emit_adapter_statement_count flags node None false codes eq_refl).
Defined.

(** X18: when asynchronous emission has no effect.  If no primitive that
    [emit_adapter] walks is a collective, or if the collectives do not all
    share one device set, the result with [async_op=True] is the result with
    [async_op=False]. *)
Theorem emit_adapter_async_without_effect (flags : CompileFlag)
    (node : IRAdapter) (prefix_attr : option string) :
  forallb (fun p => negb (isinstance_CommPrim p)) (selected_prims node) = true
  \/ spec_devices_ok (selected_prims node) = false ->
  emit_adapter flags node prefix_attr true
  = emit_adapter flags node prefix_attr false.
Proof.
  intros H. unfold emit_adapter.
  destruct (negb (length (device node) =? 1)%nat); [reflexivity|].
  destruct H as [H|H].
  - destruct (check_async_Ok (selected_prims node) true) as [b ->].
    change (check_async (selected_prims node) false) with (@Ok bool false).
    simpl.
    rewrite (mapM_ext_Forall (emit_prim flags prefix_attr b)
               (emit_prim flags prefix_attr false)); [reflexivity|].
    apply Forall_forall. intros p Hp. apply emit_prim_non_collective.
    rewrite forallb_forall in H. apply list_elem_of_In in Hp.
    specialize (H p Hp). by apply negb_true_iff in H.
  - destruct (check_async_device_mismatch _ H) as [-> _]. reflexivity.
Qed.

Lemma emit_adapter_async_without_effect_witness :
  let node :=
    adapter_of [all_reduce 1 [0; 1] 1 2; all_reduce 2 [2; 3] 2 3] in
  emit_adapter no_timer node None true
  = emit_adapter no_timer node None false.
Proof.
  intros node.
  apply (emit_adapter_async_without_effect no_timer node None).
  right. reflexivity.
Defined.

(** X19: how [emit_adapter] ends.  It returns exactly when the node sits on
    one device and every input and output of every primitive it walks is a
    supported value; on a node that is not on one device it raises
    [AssertionError], and otherwise [ValueError]. *)
Theorem emit_adapter_returns_or_raises (flags : CompileFlag)
    (node : IRAdapter) (prefix_attr : option string) (async_op : bool) :
  let all_supported :=
    forallb (fun p => forallb supported (prim_inputs p)
                      && forallb supported (prim_outputs p))
            (selected_prims node) in
  match emit_adapter flags node prefix_attr async_op with
  | Ok _ => length (device node) = 1%nat /\ all_supported = true
  | Raise e =>
      (e = AssertionError /\ length (device node) <> 1%nat) \/
      (e = ValueError /\ length (device node) = 1%nat /\
       all_supported = false)
  end.
Proof.
  intros all_supported. unfold emit_adapter.
  destruct (Nat.eqb_spec (length (device node)) 1) as [E|E]; simpl;
    [|by left].
  destruct (check_async_Ok (selected_prims node) async_op) as [b ->]. simpl.
  pose proof (is_ok_mapM (emit_prim flags prefix_attr b)
                (selected_prims node)) as Hok.
  rewrite (forallb_Forall_ext _
             (fun p => forallb supported (prim_inputs p)
                       && forallb supported (prim_outputs p))) in Hok.
  2: { apply Forall_forall. intros p _. apply is_ok_emit_prim. }
  fold all_supported in Hok.
  destruct (mapM (emit_prim flags prefix_attr b) (selected_prims node))
    as [cs|e] eqn:Em; simpl in Hok |- *.
  - by split.
  - right. split; [|by split].
    apply mapM_Raise, Exists_exists in Em as (p & _ & Hp).
    by apply emit_prim_raises in Hp.
Qed.

(** X20: a differentiable custom adapter is emitted as one call of the
    adapter itself: its primitives are not read, and [async_op] has no
    effect on it. *)
Theorem emit_adapter_custom_differentiable (flags : CompileFlag)
    (node : IRAdapter) (prefix_attr : option string) (async_op : bool) :
  differentiable node = true -> custom node = true ->
  length (device node) = 1%nat ->
  emit_adapter flags node prefix_attr async_op
  = emit_prim flags prefix_attr false (adapter_self node).
Proof.
  intros Hd Hc Hdev. unfold emit_adapter, selected_prims.
  rewrite Hd, Hc, Hdev. simpl.
  assert (Hb : check_async [adapter_self node] async_op = Ok async_op).
  { by destruct async_op. }
  rewrite Hb. simpl.
  rewrite (emit_prim_non_collective flags prefix_attr async_op
             (adapter_self node) eq_refl).
  destruct (emit_prim flags prefix_attr false (adapter_self node));
    [|reflexivity].
  simpl. by rewrite app_nil_r.
Qed.

Lemma emit_adapter_custom_differentiable_witness :
  let node :=
    {| device := [0]; differentiable := true; custom := true;
       prims := [all_reduce 1 [0; 1] 1 2; move 2 2 3];
       adapter_oid := 7;
       adapter_inputs := [VIRObject (tensor "x" 1); VIRObject (tensor "y" 2)];
       adapter_outputs := [VIRObject (tensor "z" 3)];
       adapter_kwargs := [];
       adapter_signature := "nnscaler.runtime.adapter.nn.custom" |} in
  emit_adapter no_timer node None true
  = Ok ["z_3 = nnscaler.runtime.adapter.nn.custom((x_1, y_2, ), )"].
Proof.
  intros node.
  rewrite (emit_adapter_custom_differentiable no_timer node None true);
    reflexivity.
Defined.

(** ** More on [get_backward_callsite_io_tensors] *)

Lemma grad2tensor_lookup (k : Z) (l : list PyVal) (m : gmap Z IRObject) :
  fold_left grad2tensor_step l m !! k
  = match last (List.filter (grad_is k) (omap as_IRSubTensor l)) with
    | Some o => Some o
    | None => m !! k
    end.
Proof.
  induction l as [|t l IH] using rev_ind; [reflexivity|].
  rewrite fold_left_app, omap_app, List.filter_app. simpl.
  unfold grad2tensor_step at 1.
  destruct (as_IRSubTensor t) as [o|]; simpl.
  2: { by rewrite app_nil_r. }
  unfold grad_is at 2.
  destruct (grad o) as [g|]; simpl.
  2: { by rewrite app_nil_r. }
  destruct (Z.eqb_spec (tid g) k) as [E|E].
  - rewrite last_snoc. subst k. by rewrite lookup_insert_eq.
  - rewrite app_nil_r. by rewrite lookup_insert_ne.
Qed.

Lemma lookup_grads_last (fwop : IRCell) (grads : list IRObject) :
  lookup_grads (grad2tensor_of fwop) grads
  = omap (last_with_grad fwop) grads.
Proof.
  unfold lookup_grads, grad2tensor_of, last_with_grad.
  apply list_omap_ext, Forall_Forall2_diag, Forall_forall.
  intros g _. rewrite grad2tensor_lookup. by destruct (last _).
Qed.

(** X21: what [get_backward_callsite_io_tensors] returns.  On a forward
    cell it raises [AssertionError]; on a backward cell it returns the
    tensors among the inputs and the outputs of the cell as the gradients,
    and for each gradient, in order, the last tensor among the inputs and
    then the outputs of the mirrored forward cell that has it as its
    gradient; a gradient that no such tensor has gives no entry. *)
Theorem backward_callsite_last_wins (bwop : IRCell) :
  match get_backward_callsite_io_tensors bwop with
  | Raise e =>
      if isfw bwop then e = AssertionError
      else e = AttributeError /\ mirror bwop = None
  | Ok (input_tensors, output_tensors, output_grads, input_grads) =>
      isfw bwop = false /\
      output_grads = omap as_IRSubTensor (cell_inputs bwop) /\
      input_grads = omap as_IRSubTensor (cell_outputs bwop) /\
      exists fwop,
        mirror bwop = Some fwop /\
        input_tensors = omap (last_with_grad fwop) input_grads /\
        output_tensors = omap (last_with_grad fwop) output_grads
  end.
Proof.
  unfold get_backward_callsite_io_tensors.
  destruct (isfw bwop); [reflexivity|].
  destruct (mirror bwop) as [fwop|]; [|done].
  repeat split. exists fwop. by rewrite !lookup_grads_last.
Qed.

Lemma filter_grad_is_unique (l : list IRObject) (a g : IRObject) :
  List.NoDup (map tid (grads_of l)) ->
  Forall (fun t => is_Some (grad t)) l ->
  In a l -> grad a = Some g ->
  List.filter (grad_is (tid g)) l = [a].
Proof.
  intros Hnd Hall Ha Hg.
  assert (Hnone : forall l',
    Forall (fun t => is_Some (grad t)) l' ->
    ~ In (tid g) (map tid (grads_of l')) ->
    List.filter (grad_is (tid g)) l' = []).
  { induction 1 as [|t l' [gt Ht] _ IH]; [reflexivity|].
    unfold grads_of. simpl. rewrite Ht. simpl. intros Hni.
    unfold grad_is at 1. rewrite Ht.
    destruct (Z.eqb_spec (tid gt) (tid g)) as [E|E]; [tauto|].
    apply IH. unfold grads_of. tauto. }
  induction Hall as [|t l [gt Ht] Hall IH]; [done|].
  unfold grads_of in Hnd. simpl in Hnd. rewrite Ht in Hnd. simpl in Hnd.
  apply List.NoDup_cons_iff in Hnd as [Hni Hnd].
  simpl. unfold grad_is at 1. rewrite Ht.
  destruct Ha as [->|Ha].
  - rewrite Hg in Ht. injection Ht as <-. rewrite Z.eqb_refl.
    by rewrite (Hnone l Hall Hni).
  - destruct (Z.eqb_spec (tid gt) (tid g)) as [E|E].
    + exfalso. apply Hni. rewrite E.
      apply in_map. unfold grads_of.
      apply list_elem_of_In, list_elem_of_omap. exists a.
      split; [by apply list_elem_of_In|exact Hg].
    + by apply IH.
Qed.

Lemma omap_as_IRSubTensor_map (l : list IRObject) :
  Forall (fun t => isinstance_IRSubTensor t = true) l ->
  omap as_IRSubTensor (map VIRObject l) = l.
Proof.
  induction 1 as [|t l Ht _ IH]; [reflexivity|].
  simpl. rewrite Ht. simpl. by f_equal.
Qed.

Lemma omap_lookup_grads_of (f : IRObject -> option IRObject)
    (l : list IRObject) :
  Forall (fun t => exists g, grad t = Some g /\ f g = Some t) l ->
  omap f (grads_of l) = l.
Proof.
  induction 1 as [|t l (g & Hg & Hf) _ IH]; [reflexivity|].
  unfold grads_of. simpl. rewrite Hg. simpl. rewrite Hf.
  f_equal. exact IH.
Qed.

(** X22: the round trip for any number of tensors.  When the inputs [As]
    and the outputs [Bs] of the forward cell are tensors that all have a
    gradient, the gradients are tensors with pairwise different ids, and the
    backward cell takes the gradients of [Bs] and gives the gradients of
    [As], the four lists returned are [As], [Bs], the gradients of [Bs] and
    the gradients of [As]. *)
Theorem backward_callsite_round_trip_any (As Bs : list IRObject)
    (fwop bwop : IRCell) :
  Forall (fun t => isinstance_IRSubTensor t = true /\ is_Some (grad t))
         (As ++ Bs) ->
  Forall (fun g => isinstance_IRSubTensor g = true) (grads_of (As ++ Bs)) ->
  List.NoDup (map tid (grads_of (As ++ Bs))) ->
  cell_inputs fwop = map VIRObject As ->
  cell_outputs fwop = map VIRObject Bs ->
  isfw bwop = false ->
  mirror bwop = Some fwop ->
  cell_inputs bwop = map VIRObject (grads_of Bs) ->
  cell_outputs bwop = map VIRObject (grads_of As) ->
  get_backward_callsite_io_tensors bwop
  = Ok (As, Bs, grads_of Bs, grads_of As).
Proof.
  intros Hall Hgrads Hnd Hfi Hfo Hfw Hmirror Hbi Hbo.
  unfold get_backward_callsite_io_tensors.
  rewrite Hfw, Hmirror, Hbi, Hbo, !lookup_grads_last.
  assert (HgA : Forall (fun g => isinstance_IRSubTensor g = true)
                       (grads_of As) /\
                Forall (fun g => isinstance_IRSubTensor g = true)
                       (grads_of Bs)).
  { unfold grads_of in *. rewrite omap_app in Hgrads.
    by apply Forall_app in Hgrads. }
  destruct HgA as [HgA HgB].
  rewrite !omap_as_IRSubTensor_map by assumption.
  assert (Hsub : omap as_IRSubTensor (cell_inputs fwop ++ cell_outputs fwop)
                 = As ++ Bs).
  { rewrite Hfi, Hfo, <- map_app. apply omap_as_IRSubTensor_map.
    eapply List.Forall_impl; [|exact Hall]. by intros t [? _]. }
  assert (Hlast : Forall (fun t => exists g, grad t = Some g /\
                                   last_with_grad fwop g = Some t)
                         (As ++ Bs)).
  { apply Forall_forall. intros t Ht. apply list_elem_of_In in Ht.
    pose proof Hall as Hall'. rewrite Forall_forall in Hall'.
    destruct (Hall' t) as [_ [g Hg]]; [by apply list_elem_of_In|].
    exists g. split; [exact Hg|].
    unfold last_with_grad. rewrite Hsub.
    rewrite (filter_grad_is_unique (As ++ Bs) t g); [reflexivity|exact Hnd| |
      exact Ht|exact Hg].
    eapply List.Forall_impl; [|exact Hall]. by intros ? [_ ?]. }
  apply Forall_app in Hlast as [HlA HlB].
  by rewrite !omap_lookup_grads_of.
Qed.

Lemma backward_callsite_round_trip_any_witness :
  let g (n : string) (t : Z) :=
    MkIRObject n t false ClsIRSubTensor None EmptyString in
  let T (n : string) (t : Z) (gr : IRObject) :=
    MkIRObject n t false ClsIRSubTensor (Some gr) EmptyString in
  let As := [T "x" 1 (g "gx" 11); T "w" 2 (g "gw" 12)] in
  let Bs := [T "y" 3 (g "gy" 13)] in
  let fwop := MkIRCell true None (map VIRObject As) (map VIRObject Bs) in
  let bwop := MkIRCell false (Some fwop) (map VIRObject (grads_of Bs))
                (map VIRObject (grads_of As)) in
  get_backward_callsite_io_tensors bwop
  = Ok (As, Bs, [g "gy" 13], [g "gx" 11; g "gw" 12]).
Proof.
  intros g T As Bs fwop bwop.
  apply (backward_callsite_round_trip_any As Bs fwop bwop);
    try reflexivity.
  - repeat constructor; by eexists.
  - repeat constructor.
  - repeat constructor; simpl; lia.
Defined.

(** ** Skipping attributes *)

Lemma names_of_skip_filter (ts : list PyVal) (p : option string) :
  names_of ts true p
  = names_of (List.filter (fun t => negb (skipped t true)) ts) false p.
Proof.
  induction ts as [|t ts IH]; [reflexivity|]. simpl.
  destruct (skipped t true) eqn:Et; simpl; [exact IH|].
  assert (Ht : skipped t false = false).
  { destruct t; try reflexivity. simpl. by rewrite andb_false_r. }
  by rewrite Ht, IH.
Qed.

(** X23: skipping attributes is filtering first.  [tuple_name] and
    [return_name] with [skip_attr=True] give what they give with
    [skip_attr=False] on the list without its attribute tensors; in
    particular a list of attribute tensors only is the empty tuple and the
    placeholder. *)
Theorem skip_attr_filters_first (tensors : list PyVal)
    (prefix_attr : option string) :
  let kept := List.filter (fun t => negb (skipped t true)) tensors in
  tuple_name tensors true prefix_attr = tuple_name kept false prefix_attr /\
  return_name tensors true prefix_attr = return_name kept false prefix_attr /\
  (kept = [] ->
   tuple_name tensors true prefix_attr = Ok "()" /\
   return_name tensors true prefix_attr = Ok "_").
Proof.
  intros kept. unfold tuple_name, return_name.
  rewrite names_of_skip_filter. fold kept.
  split; [reflexivity|split; [reflexivity|]].
  by intros ->.
Qed.

Lemma skip_attr_filters_first_witness :
  let w := VIRObject (MkIRObject "w" 1 true ClsIRSubTensor None EmptyString) in
  let b := VIRObject (MkIRObject "b" 2 true ClsIRTensor None EmptyString) in
  tuple_name [w; b] true (Some "self.") = Ok "()" /\
  return_name [w; b] true (Some "self.") = Ok "_".
Proof.
  intros w b.
  apply (proj2 (proj2 (skip_attr_filters_first [w; b] (Some "self.")))).
  reflexivity.
Defined.
